(** * go-evdev-keyboard: the key-combination manager

    A shallow embedding of [main.go] (package [keyboard]): the [Manager]
    with its three maps, [RegisterBinding], [SuppressRepeats],
    [HandleEvent] and the string helpers they use, followed by the
    properties of the combination engine.

    Conventions of the embedding.
    - Go strings are byte strings: [string] of [Stdlib.Strings.String].
    - [map[string]T] is stdpp's [gmap string T].
    - The mutex [mu] serialises the methods; the embedding is the
      sequential behaviour of one method call at a time.
    - [go cb()] is recorded: a call of [HandleEvent] returns the list of
      callbacks it has started.
    - A run-time panic is the result [Panic].
    - The order in which [range] yields the keys of a Go map is not
      specified by the language, and the runtime randomises it.  The
      order seen by the loop over [m.pressed] is therefore an explicit
      argument of [HandleEvent]. *)

From Stdlib Require Import ZArith Ascii String List Bool Lia.
From stdpp Require Import base gmap strings list fin_maps.

Local Open Scope string_scope.
Local Open Scope Z_scope.

(** ** Results of code that may panic *)

Inductive result (A : Type) : Type :=
| Ok (a : A)
| Panic.
Arguments Ok {A} a.
Arguments Panic {A}.

Definition bind {A B : Type} (r : result A) (k : A -> result B) : result B :=
  match r with
  | Ok a => k a
  | Panic => Panic
  end.

Notation "'do' x <- r ; k" := (bind r (fun x => k))
  (at level 10, x name, r at level 100, k at level 200).

(** ** The functions of package [strings] used by the source *)

Module strings.

(** [strings.ToUpper] on one byte of an ASCII string: ['a'..'z'] lose
    [0x20], every other byte is kept. *)
Definition upperByte (c : ascii) : ascii :=
  let n := N_of_ascii c in
  if (N.leb 97 n && N.leb n 122)%bool then ascii_of_N (n - 32) else c.

(** [strings.ToUpper], the path Go takes for ASCII strings.  Key names
    of evdev and the tokens of a combo are ASCII; on a string with a
    byte above [0x7f] Go maps runes through [unicode.ToUpper] instead,
    which is not part of this embedding: this function is Go's on the
    strings that satisfy [isASCII] below, and only there. *)
Fixpoint ToUpper (s : string) : string :=
  match s with
  | EmptyString => EmptyString
  | String c s' => String (upperByte c) (ToUpper s')
  end.

(** [strings.CutPrefix]: the rest of [s] after [prefix], if [s] starts
    with it. *)
Fixpoint CutPrefix (s prefix : string) {struct prefix} : option string :=
  match prefix with
  | EmptyString => Some s
  | String p prefix' =>
      match s with
      | EmptyString => None
      | String c s' => if Ascii.eqb c p then CutPrefix s' prefix' else None
      end
  end.

(** [strings.TrimPrefix]: [s] without the leading [prefix]; [s] itself
    when it does not start with [prefix]. *)
Definition TrimPrefix (s prefix : string) : string :=
  match CutPrefix s prefix with
  | Some rest => rest
  | None => s
  end.

(** [strings.Split] for a separator of one byte, the only use in the
    source ([Split(_, "+")]).  The result is never empty: a string
    without the separator is returned as its only field. *)
Fixpoint Split (s : string) (sep : ascii) : list string :=
  match s with
  | EmptyString => [EmptyString]
  | String c s' =>
      if Ascii.eqb c sep then EmptyString :: Split s' sep
      else match Split s' sep with
           | p :: ps => String c p :: ps
           | [] => [String c EmptyString]
           end
  end.

(** [strings.Join]. *)
Fixpoint Join (elems : list string) (sep : string) : string :=
  match elems with
  | [] => EmptyString
  | [e] => e
  | e :: rest => e ++ sep ++ Join rest sep
  end.

(** [strings.ToLower] on one byte of an ASCII string. *)
Definition lowerByte (c : ascii) : ascii :=
  let n := N_of_ascii c in
  if (N.leb 65 n && N.leb n 90)%bool then ascii_of_N (n + 32) else c.

(** [strings.ToLower], the path Go takes for ASCII strings: Go's
    function on the strings that satisfy [isASCII] below, and only
    there (see [ToUpper]). *)
Fixpoint ToLower (s : string) : string :=
  match s with
  | EmptyString => EmptyString
  | String c s' => String (lowerByte c) (ToLower s')
  end.

(** [strings.Contains]: [substr] occurs in [s]. *)
Fixpoint Contains (s substr : string) {struct s} : bool :=
  match CutPrefix s substr with
  | Some _ => true
  | None =>
      match s with
      | EmptyString => false
      | String _ s' => Contains s' substr
      end
  end.

End strings.

(** ** Events *)

(** [type EventType int], with [Release], [Press], [Hold] numbered by
    [iota].  Any other integer is a value of the type as well. *)
Definition EventType : Type := Z.
Definition Release : EventType := 0.
Definition Press : EventType := 1.
Definition Hold : EventType := 2.

Record Event : Type := mkEvent {
  Key : string;
  Type' : EventType
}.

(** ** Key names *)

Definition isModifier (key : string) : bool :=
  if String.eqb key "KEY_LEFTCTRL" then true
  else if String.eqb key "KEY_RIGHTCTRL" then true
  else if String.eqb key "KEY_LEFTSHIFT" then true
  else if String.eqb key "KEY_RIGHTSHIFT" then true
  else if String.eqb key "KEY_LEFTALT" then true
  else if String.eqb key "KEY_RIGHTALT" then true
  else if String.eqb key "KEY_LEFTMETA" then true
  else if String.eqb key "KEY_RIGHTMETA" then true
  else false.

Definition modifierName (key : string) : string :=
  let key := strings.TrimPrefix key "KEY_" in
  let key := strings.TrimPrefix key "LEFT" in
  let key := strings.TrimPrefix key "RIGHT" in
  key.

Definition keyName (key : string) : string :=
  strings.TrimPrefix key "KEY_".

Definition normalizeCombo (c : string) : string :=
  let parts := strings.Split (strings.ToUpper c) "+" in
  strings.Join parts "+".

(** ** The manager *)

(** A [BindingCallback] is a Go function value [func()].  The embedding
    identifies a callback by a label; the callbacks are non-nil function
    values.  The manager on callbacks that may be nil is the module
    [Nilable] below. *)
Inductive BindingCallback : Type :=
| Callback (label : nat).

Record Manager : Type := mkManager {
  bindings : gmap string BindingCallback;
  pressed : gmap string bool;
  fired : gmap string bool;
  suppressRepeats : bool
}.

Definition NewManager : Manager :=
  {| bindings := ∅; pressed := ∅; fired := ∅; suppressRepeats := false |}.

Definition SuppressRepeats (m : Manager) : Manager :=
  {| bindings := bindings m; pressed := pressed m; fired := fired m;
     suppressRepeats := true |}.

Definition RegisterBinding (combo : string) (cb : BindingCallback)
    (m : Manager) : Manager :=
  let norm := normalizeCombo combo in
  {| bindings := <[norm := cb]> (bindings m); pressed := pressed m;
     fired := fired m; suppressRepeats := suppressRepeats m |}.

(** [mp[k]] for a [map[string]bool]: the zero value [false] when [k] is
    absent. *)
Definition index (mp : gmap string bool) (k : string) : bool :=
  match mp !! k with
  | Some b => b
  | None => false
  end.

(** [parts[len(parts)-1]], which panics on an empty slice. *)
Definition lastPart (parts : list string) : result string :=
  match parts !! (length parts - 1)%nat with
  | Some p => Ok p
  | None => Panic
  end.

(** The body of [for combo := range m.fired], run over the keys in the
    order [combos]: deleting the entry of the current key is allowed
    during a [range], and every key is visited once. *)
Fixpoint purgeLoop (suffix : string) (combos : list string)
    (fired : gmap string bool) : result (gmap string bool) :=
  match combos with
  | [] => Ok fired
  | combo :: rest =>
      let parts := strings.Split combo "+" in
      do last <- lastPart parts;
      if String.eqb last suffix
      then purgeLoop suffix rest (delete combo fired)
      else purgeLoop suffix rest fired
  end.

(** The keys of a map in the order [map_to_list] lists them. *)
Definition keys {V : Type} (mp : gmap string V) : list string :=
  (map_to_list mp).*1.

(** [order] is a possible order for [range mp]: every key of [mp] once. *)
Definition rangeOrder {V : Type} (mp : gmap string V)
    (order : list string) : Prop :=
  order ≡ₚ keys mp.

(** Lines 176-189: the update of the pressed keys. *)
Definition updatePressed (m : Manager) (ev : Event) : result Manager :=
  let key := Key ev in
  if Type' ev =? Press then
    Ok {| bindings := bindings m; pressed := <[key := true]> (pressed m);
          fired := fired m; suppressRepeats := suppressRepeats m |}
  else if Type' ev =? Release then
    let pressed' := delete key (pressed m) in
    if suppressRepeats m then
      let suffix := keyName key in
      do fired' <- purgeLoop suffix (keys (fired m)) (fired m);
      Ok {| bindings := bindings m; pressed := pressed';
            fired := fired'; suppressRepeats := suppressRepeats m |}
    else
      Ok {| bindings := bindings m; pressed := pressed';
            fired := fired m; suppressRepeats := suppressRepeats m |}
  else Ok m.

(** Lines 193-200: the combo built on the press of [key], when
    [range m.pressed] yields the keys in the order [order]. *)
Definition comboParts (order : list string) (key : string) : list string :=
  (fold_left
    (fun parts k =>
       if isModifier k then (parts ++ [modifierName k])%list else parts)
    order [] ++ [keyName key])%list.

Definition candidateCombo (order : list string) (key : string) : string :=
  strings.Join (comboParts order key) "+".

(** Lines 209-211: the lookup, and [go cb()]. *)
Definition dispatch (m : Manager) (combo : string) : list BindingCallback :=
  match bindings m !! combo with
  | Some cb => [cb]
  | None => []
  end.

(** [HandleEvent]; [order] is the order in which [range m.pressed]
    (line 194, after the update of the pressed keys) yields its keys. *)
Definition HandleEvent (order : list string) (m : Manager) (ev : Event)
    : result (Manager * list BindingCallback) :=
  let key := Key ev in
  let mod' := isModifier key in
  do m1 <- updatePressed m ev;
  if ((Type' ev =? Press) && negb mod')%bool then
    let combo := candidateCombo order key in
    if suppressRepeats m1 then
      if index (fired m1) combo then Ok (m1, [])
      else
        let m2 := {| bindings := bindings m1; pressed := pressed m1;
                     fired := <[combo := true]> (fired m1);
                     suppressRepeats := suppressRepeats m1 |} in
        Ok (m2, dispatch m2 combo)
    else Ok (m1, dispatch m1 combo)
  else Ok (m1, []).

(** The loop of the caller, [for ev := range events { mgr.HandleEvent(ev) }]:
    every event comes with the order its [range m.pressed] observes; the
    callbacks started are collected in the order of the events. *)
Fixpoint HandleEvents (m : Manager) (evs : list (list string * Event))
    : result (Manager * list BindingCallback) :=
  match evs with
  | [] => Ok (m, [])
  | (order, ev) :: rest =>
      do r <- HandleEvent order m ev;
      do r' <- HandleEvents (fst r) rest;
      Ok (fst r', (snd r ++ snd r')%list)
  end.

(** The last ['+']-separated token of a combo, as line 184 computes it. *)
Definition trailing (combo : string) : string :=
  List.last (strings.Split combo "+") EmptyString.

(** [s] contains the byte [c]. *)
Fixpoint hasByte (c : ascii) (s : string) : bool :=
  match s with
  | EmptyString => false
  | String c' s' => (Ascii.eqb c' c || hasByte c s')%bool
  end.

(** ** Events and manager states used in the statements *)

Definition press (key : string) : Event := mkEvent key Press.
Definition release (key : string) : Event := mkEvent key Release.
Definition hold (key : string) : Event := mkEvent key Hold.

(** The manager after line 177. *)
Definition withPressed (m : Manager) (key : string) : Manager :=
  {| bindings := bindings m; pressed := <[key := true]> (pressed m);
     fired := fired m; suppressRepeats := suppressRepeats m |}.

(** The manager after line 206. *)
Definition withFired (m : Manager) (combo : string) : Manager :=
  {| bindings := bindings m; pressed := pressed m;
     fired := <[combo := true]> (fired m);
     suppressRepeats := suppressRepeats m |}.

(** ** The keys held down after a sequence of events *)

(** [k] is released by some event of [evs]. *)
Definition releasedIn (k : string) (evs : list Event) : bool :=
  existsb (fun e => String.eqb (Key e) k && (Type' e =? Release))%bool evs.

(** [k] has been pressed in [evs] and not released after that press. *)
Fixpoint stillDown (k : string) (evs : list Event) : bool :=
  match evs with
  | [] => false
  | e :: rest =>
      (String.eqb (Key e) k && (Type' e =? Press)
       && negb (releasedIn k rest) || stillDown k rest)%bool
  end.

(** The events of [evs] that concern the key [k], in their order. *)
Definition eventsOf (k : string) (evs : list Event) : list Event :=
  List.filter (fun e => String.eqb (Key e) k) evs.

(** The events of a schedule are Pressed or Released. *)
Definition noHeld (sched : list (list string * Event)) : Prop :=
  Forall (fun oe => Type' (snd oe) = Press \/ Type' (snd oe) = Release) sched.

(** ** The invariant of the fired set *)

(** Every combo of the fired set ends in the name of a key that is in
    the pressed set; and the fired set is used only under suppression. *)
Definition firedInv (m : Manager) : Prop :=
  (forall combo, is_Some (fired m !! combo) ->
     exists k, is_Some (pressed m !! k) /\ keyName k = trailing combo) /\
  (suppressRepeats m = false -> fired m = ∅).

(** ** The usage of the README: [CTRL+ALT+T] *)

Definition cbT : BindingCallback := Callback 1.

(** [mgr.RegisterBinding("CTRL+ALT+T", ...)] on a new manager. *)
Definition mgr : Manager := RegisterBinding "CTRL+ALT+T" cbT NewManager.

(** [mgr.SuppressRepeats()], then the registration, as in the README. *)
Definition mgrS : Manager :=
  RegisterBinding "CTRL+ALT+T" cbT (SuppressRepeats NewManager).

(** Two orders in which [range m.pressed] may yield the three keys. *)
Definition ctrlFirst : list string := ["KEY_LEFTCTRL"; "KEY_LEFTALT"; "KEY_T"].
Definition altFirst : list string := ["KEY_LEFTALT"; "KEY_LEFTCTRL"; "KEY_T"].

(** The two modifiers go down; neither press runs the loop of line 194. *)
Definition holdCtrlAlt : list (list string * Event) :=
  [ (["KEY_LEFTCTRL"], press "KEY_LEFTCTRL");
    (["KEY_LEFTALT"; "KEY_LEFTCTRL"], press "KEY_LEFTALT") ].

(** When the loop of line 194 runs, [order] is an order of the keys of
    the pressed set it ranges over. *)
Definition validOrder (order : list string) (m : Manager) (ev : Event)
    : Prop :=
  Type' ev = Press -> isModifier (Key ev) = false ->
  rangeOrder (<[Key ev := true]> (pressed m)) order.

Fixpoint validSchedule (m : Manager) (sched : list (list string * Event))
    : Prop :=
  match sched with
  | [] => True
  | (order, ev) :: rest =>
      validOrder order m ev /\
      match HandleEvent order m ev with
      | Ok (m', _) => validSchedule m' rest
      | Panic => True
      end
  end.

Definition pressedCtrlAltT : gmap string bool :=
  <["KEY_T" := true]>
    (<["KEY_LEFTALT" := true]> (<["KEY_LEFTCTRL" := true]> ∅)).

(** The manager with both modifiers and [T] down. *)
Definition downCtrlAltT (m : Manager) : Manager :=
  withPressed
    (withPressed (withPressed m "KEY_LEFTCTRL") "KEY_LEFTALT") "KEY_T".

(** The events of C4: both modifiers, [T], and [T] again without a
    release, where each range over the pressed set yields the keys in
    the order [order]. *)
Definition pressTTwice (order : list string) : list (list string * Event) :=
  (holdCtrlAlt ++ [ (order, press "KEY_T"); (order, press "KEY_T") ])%list.

Definition releaseThenPressT (order : list string)
    : list (list string * Event) :=
  [ ([], release "KEY_T"); (order, press "KEY_T") ].

(** The manager of the README after [CTRL+ALT+T] has fired once. *)
Definition firedOnce : Manager := withFired (downCtrlAltT mgrS) "CTRL+ALT+T".

(** ** The canonical form of a specifier *)

(** The canonical form in the words of the specification: every token
    uppercased, a modifier token without its LEFT or RIGHT qualifier,
    the non-modifier token last. *)
Definition isModifierToken (tok : string) : bool :=
  existsb (String.eqb tok) ["CTRL"; "ALT"; "SHIFT"; "META"].

Definition unqualified (tok : string) : string :=
  let t := strings.TrimPrefix (strings.TrimPrefix tok "LEFT") "RIGHT" in
  if isModifierToken t then t else tok.

Definition canonicalForm (stored specifier : string) : Prop :=
  strings.Split stored "+"
    ≡ₚ List.map (fun tok => unqualified (strings.ToUpper tok))
         (strings.Split specifier "+") /\
  exists mods k,
    strings.Split stored "+" = (mods ++ [k])%list /\
    Forall (fun tok => isModifierToken tok = true) mods /\
    isModifierToken k = false.

(** ** [EventType.String] *)

Definition EventType_String (e : EventType) : string :=
  if e =? Press then "Press"
  else if e =? Release then "Release"
  else if e =? Hold then "Hold"
  else "Unknown".

(** ** The devices: what the source uses of package [evdev] *)

(** A Go result [(value, error)]: the value, or the message of the
    error. *)
Inductive outcome (A : Type) : Type :=
| Got (a : A)
| Failed (err : string).
Arguments Got {A} a.
Arguments Failed {A} err.

Module evdev.

(** [type EvType uint16]; the two event types the source names, with
    their values in [linux/input-event-codes.h]. *)
Definition EvType : Type := Z.
Definition EV_KEY : EvType := 1.
Definition EV_REP : EvType := 20.

(** An entry of [ListDevicePaths]. *)
Record InputPath : Type := mkInputPath {
  Name : string;
  Path : string
}.

(** What the source asks of an opened device: [CapableTypes()] and
    [Name()]. *)
Record InputDevice : Type := mkInputDevice {
  CapableTypes : list EvType;
  DeviceName : outcome string
}.

(** An event read by [ReadOne]: its type, code and value. *)
Record InputEvent : Type := mkInputEvent {
  evType : EvType;
  evCode : Z;
  evValue : Z
}.

End evdev.

(** [slices.Contains] on event types. *)
Definition slices_Contains (types : list evdev.EvType) (t : evdev.EvType)
    : bool :=
  existsb (Z.eqb t) types.

(** The calls that acquire and release a device. *)
Inductive sysop : Type :=
| Opened (path : string)
| Closed (path : string).

(** The loop of [findFirstKeyboard] over the listed paths.  [open] is
    [evdev.Open]; the result is the trace of the devices opened and
    closed, and the return value. *)
Fixpoint scanPaths (open : string -> outcome evdev.InputDevice)
    (paths : list evdev.InputPath) : list sysop * outcome string :=
  match paths with
  | [] => ([], Failed "no keyboard found")
  | p :: rest =>
      match open (evdev.Path p) with
      | Failed _ => scanPaths open rest
      | Got dev =>
          let types := evdev.CapableTypes dev in
          let has := slices_Contains types in
          let skip :=
            let r := scanPaths open rest in
            (Opened (evdev.Path p) :: Closed (evdev.Path p) :: fst r, snd r) in
          if (negb (has evdev.EV_KEY) || negb (has evdev.EV_REP))%bool
          then skip
          else
            match evdev.DeviceName dev with
            | Failed _ => skip
            | Got name =>
                if negb (strings.Contains (strings.ToLower name) "keyboard")
                then skip
                else ([Opened (evdev.Path p); Closed (evdev.Path p)],
                      Got (evdev.Path p))
            end
      end
  end.

(** [findFirstKeyboard]; [listing] is the result of
    [evdev.ListDevicePaths()]. *)
Definition findFirstKeyboard (listing : outcome (list evdev.InputPath))
    (open : string -> outcome evdev.InputDevice)
    : list sysop * outcome string :=
  match listing with
  | Failed err => ([], Failed ("listing devices: " ++ err))
  | Got paths => scanPaths open paths
  end.

(** The loop of the goroutine of [Listen], lines 97-117: [reads] are the
    results of the successive calls of [dev.ReadOne()], [codeName] is
    [ev.CodeName()]; the result is the sequence of events sent on the
    channel.  The loop returns at the first read error. *)
Fixpoint readLoop (codeName : evdev.InputEvent -> string)
    (reads : list (outcome evdev.InputEvent)) : list Event :=
  match reads with
  | [] => []
  | Failed _ :: _ => []
  | Got ev :: rest =>
      if negb (evdev.evType ev =? evdev.EV_KEY) then readLoop codeName rest
      else if evdev.evValue ev =? 0
      then mkEvent (codeName ev) Release :: readLoop codeName rest
      else if evdev.evValue ev =? 1
      then mkEvent (codeName ev) Press :: readLoop codeName rest
      else if evdev.evValue ev =? 2
      then mkEvent (codeName ev) Hold :: readLoop codeName rest
      else readLoop codeName rest
  end.

(** [Listen]: the error it returns, or the events its channel
    delivers.  [reopen] is the second call of [evdev.Open], on the path
    found. *)
Definition Listen (listing : outcome (list evdev.InputPath))
    (open reopen : string -> outcome evdev.InputDevice)
    (codeName : evdev.InputEvent -> string)
    (reads : list (outcome evdev.InputEvent)) : outcome (list Event) :=
  match snd (findFirstKeyboard listing open) with
  | Failed err => Failed err
  | Got path =>
      match reopen path with
      | Failed err => Failed ("opening " ++ path ++ ": " ++ err)
      | Got _ => Got (readLoop codeName reads)
      end
  end.

(** A device qualifies as a keyboard: it opens, reports key and repeat
    events, and its name contains "keyboard" in any letter case. *)
Definition isKeyboard (open : string -> outcome evdev.InputDevice)
    (p : evdev.InputPath) : Prop :=
  exists dev name pre post,
    open (evdev.Path p) = Got dev /\
    In evdev.EV_KEY (evdev.CapableTypes dev) /\
    In evdev.EV_REP (evdev.CapableTypes dev) /\
    evdev.DeviceName dev = Got name /\
    strings.ToLower name = (pre ++ "keyboard" ++ post)%string.

(** The trace of devices opened and closed one after the other. *)
Definition openedAndClosed (paths : list string) : list sysop :=
  List.flat_map (fun p => [Opened p; Closed p]) paths.

(** Four device nodes: a power button, a node that cannot be opened,
    and two keyboards. *)
Definition someDevices (path : string) : outcome evdev.InputDevice :=
  if String.eqb path "/dev/input/event0"
  then Got (evdev.mkInputDevice [0; 1] (Got "Power Button"))
  else if String.eqb path "/dev/input/event1"
  then Failed "permission denied"
  else if String.eqb path "/dev/input/event2"
  then Got (evdev.mkInputDevice [0; 1; 4; 17; 20]
              (Got "AT Translated Set 2 Keyboard"))
  else Got (evdev.mkInputDevice [0; 1; 20] (Got "USB keyboard")).

Definition somePaths : list evdev.InputPath :=
  List.map (evdev.mkInputPath "")
    ["/dev/input/event0"; "/dev/input/event1";
     "/dev/input/event2"; "/dev/input/event3"].

(** ** Maps used as sets *)

(** Every entry of the map holds [true]. *)
Definition allTrue (mp : gmap string bool) : Prop :=
  forall k b, mp !! k = Some b -> b = true.

(** The presses of a non-modifier key in a schedule. *)
Definition keyPresses (sched : list (list string * Event)) : nat :=
  length (List.filter
            (fun oe => (Type' (snd oe) =? Press)
                       && negb (isModifier (Key (snd oe))))%bool sched).

(** ** ASCII strings *)

(** Every byte of [s] is below [0x80].  On such strings Go's
    [strings.ToUpper] and [strings.ToLower] are the byte-wise functions
    of the module [strings] above; the statements that pass an arbitrary
    string through one of them are about ASCII strings. *)
Fixpoint isASCII (s : string) : bool :=
  match s with
  | EmptyString => true
  | String c s' => (N.ltb (N_of_ascii c) 128 && isASCII s')%bool
  end.

(** ** The manager when a registered callback may be nil *)

(** The definitions above take a callback to be a function.  A Go value
    of type [BindingCallback] may also be [nil], which [RegisterBinding]
    stores like any other, and [go cb()] on a nil function value is a
    fatal error of the runtime.  This module is the manager on such
    values; a fatal error is the result [Panic]. *)
Module Nilable.

Inductive funcValue : Type :=
| nilFunc
| func (cb : BindingCallback).

Record Manager : Type := mkManager {
  bindings : gmap string funcValue;
  pressed : gmap string bool;
  fired : gmap string bool;
  suppressRepeats : bool
}.

Definition NewManager : Manager :=
  {| bindings := ∅; pressed := ∅; fired := ∅; suppressRepeats := false |}.

Definition SuppressRepeats (m : Manager) : Manager :=
  {| bindings := bindings m; pressed := pressed m; fired := fired m;
     suppressRepeats := true |}.

Definition RegisterBinding (combo : string) (cb : funcValue)
    (m : Manager) : Manager :=
  let norm := normalizeCombo combo in
  {| bindings := <[norm := cb]> (bindings m); pressed := pressed m;
     fired := fired m; suppressRepeats := suppressRepeats m |}.

(** Lines 176-189. *)
Definition updatePressed (m : Manager) (ev : Event) : result Manager :=
  let key := Key ev in
  if Type' ev =? Press then
    Ok {| bindings := bindings m; pressed := <[key := true]> (pressed m);
          fired := fired m; suppressRepeats := suppressRepeats m |}
  else if Type' ev =? Release then
    let pressed' := delete key (pressed m) in
    if suppressRepeats m then
      let suffix := keyName key in
      do fired' <- purgeLoop suffix (keys (fired m)) (fired m);
      Ok {| bindings := bindings m; pressed := pressed';
            fired := fired'; suppressRepeats := suppressRepeats m |}
    else
      Ok {| bindings := bindings m; pressed := pressed';
            fired := fired m; suppressRepeats := suppressRepeats m |}
  else Ok m.

(** Lines 209-211: the lookup, and [go cb()], fatal when [cb] is nil. *)
Definition dispatch (m : Manager) (combo : string)
    : result (list BindingCallback) :=
  match bindings m !! combo with
  | Some (func cb) => Ok [cb]
  | Some nilFunc => Panic
  | None => Ok []
  end.

Definition HandleEvent (order : list string) (m : Manager) (ev : Event)
    : result (Manager * list BindingCallback) :=
  let key := Key ev in
  let mod' := isModifier key in
  do m1 <- updatePressed m ev;
  if ((Type' ev =? Press) && negb mod')%bool then
    let combo := candidateCombo order key in
    if suppressRepeats m1 then
      if index (fired m1) combo then Ok (m1, [])
      else
        let m2 := {| bindings := bindings m1; pressed := pressed m1;
                     fired := <[combo := true]> (fired m1);
                     suppressRepeats := suppressRepeats m1 |} in
        do cbs <- dispatch m2 combo;
        Ok (m2, cbs)
    else
      do cbs <- dispatch m1 combo;
      Ok (m1, cbs)
  else Ok (m1, []).

Fixpoint HandleEvents (m : Manager) (evs : list (list string * Event))
    : result (Manager * list BindingCallback) :=
  match evs with
  | [] => Ok (m, [])
  | (order, ev) :: rest =>
      do r <- HandleEvent order m ev;
      do r' <- HandleEvents (fst r) rest;
      Ok (fst r', (snd r ++ snd r')%list)
  end.

End Nilable.

(** A manager whose callbacks are functions, as a manager of
    [Nilable]. *)
Definition embed (m : Manager) : Nilable.Manager :=
  {| Nilable.bindings := Nilable.func <$> bindings m;
     Nilable.pressed := pressed m;
     Nilable.fired := fired m;
     Nilable.suppressRepeats := suppressRepeats m |}.

(** The function of a callback value, if it is not nil. *)
Definition funcOf (v : Nilable.funcValue) : option BindingCallback :=
  match v with
  | Nilable.func cb => Some cb
  | Nilable.nilFunc => None
  end.

(** The manager without its nil callbacks. *)
Definition strip (m : Nilable.Manager) : Manager :=
  {| bindings := omap funcOf (Nilable.bindings m);
     pressed := Nilable.pressed m;
     fired := Nilable.fired m;
     suppressRepeats := Nilable.suppressRepeats m |}.

(** No combo is bound to a nil callback. *)
Definition noNil (m : Nilable.Manager) : Prop :=
  forall combo, Nilable.bindings m !! combo <> Some Nilable.nilFunc.

(** [firedInv] on a manager of [Nilable]. *)
Definition firedInvN (m : Nilable.Manager) : Prop :=
  (forall combo, is_Some (Nilable.fired m !! combo) ->
     exists k, is_Some (Nilable.pressed m !! k) /\
               keyName k = trailing combo) /\
  (Nilable.suppressRepeats m = false -> Nilable.fired m = ∅).

(** A manager of the README with suppression, both modifiers and [T]
    down, the combo fired, and a second combo bound to nil. *)
Definition firedOnceN : Nilable.Manager :=
  Nilable.RegisterBinding "CTRL+X" Nilable.nilFunc
    {| Nilable.bindings := {[ "CTRL+ALT+T" := Nilable.func cbT ]};
       Nilable.pressed := pressedCtrlAltT;
       Nilable.fired := {[ "CTRL+ALT+T" := true ]};
       Nilable.suppressRepeats := true |}.

(** ** Lemmas on the string functions *)

Section StringLemmas.

Import strings.

Lemma append_cons c s1 s2 :
  (String c s1 ++ s2)%string = String c (s1 ++ s2)%string.
Proof. reflexivity. Qed.

Lemma append_assoc s1 s2 s3 :
  ((s1 ++ s2) ++ s3)%string = (s1 ++ s2 ++ s3)%string.
Proof.
  induction s1 as [|c s1 IH]; [reflexivity|].
  now rewrite !append_cons, IH.
Qed.

Lemma upperByte_idem c : upperByte (upperByte c) = upperByte c.
Proof. destruct c as [[] [] [] [] [] [] [] []]; reflexivity. Qed.

Lemma upperByte_plus c : Ascii.eqb (upperByte c) "+" = Ascii.eqb c "+".
Proof. destruct c as [[] [] [] [] [] [] [] []]; reflexivity. Qed.

Lemma ToUpper_idem s : ToUpper (ToUpper s) = ToUpper s.
Proof.
  induction s as [|c s IH]; simpl; [reflexivity|].
  now rewrite upperByte_idem, IH.
Qed.

Lemma Split_nonempty s sep : Split s sep <> [].
Proof.
  destruct s as [|c s]; simpl; [discriminate|].
  destruct (Ascii.eqb c sep); [discriminate|].
  destruct (Split s sep); discriminate.
Qed.

Lemma Join_cons e rest sep :
  rest <> [] -> Join (e :: rest) sep = (e ++ sep ++ Join rest sep)%string.
Proof. destruct rest; [congruence | reflexivity]. Qed.

Lemma Join_Split s sep : Join (Split s sep) (String sep EmptyString) = s.
Proof.
  induction s as [|c s IH]; simpl; [reflexivity|].
  destruct (Ascii.eqb_spec c sep) as [->|Hne].
  - rewrite Join_cons by apply Split_nonempty. simpl. now rewrite IH.
  - destruct (Split s sep) as [|p ps] eqn:E.
    + now apply Split_nonempty in E.
    + destruct ps as [|q qs]; simpl in *; now rewrite <- IH.
Qed.

Lemma Split_ToUpper s :
  Split (ToUpper s) "+" = List.map ToUpper (Split s "+").
Proof.
  induction s as [|c s IH]; simpl; [reflexivity|].
  rewrite upperByte_plus.
  destruct (Ascii.eqb c "+"); simpl; [now rewrite IH|].
  rewrite IH. destruct (Split s "+"); reflexivity.
Qed.

Lemma Split_app s1 s2 sep :
  Split (s1 ++ String sep s2)%string sep
  = (Split s1 sep ++ Split s2 sep)%list.
Proof.
  induction s1 as [|c s1 IH]; simpl.
  - now rewrite Ascii.eqb_refl.
  - destruct (Ascii.eqb c sep); rewrite IH; [reflexivity|].
    destruct (Split s1 sep) as [|p ps] eqn:E; [|reflexivity].
    now apply Split_nonempty in E.
Qed.

Lemma Split_noSep s sep : hasByte sep s = false -> Split s sep = [s].
Proof.
  induction s as [|c s IH]; simpl; [reflexivity|].
  intros [Hc Hs]%orb_false_iff. now rewrite Hc, IH.
Qed.

Lemma lastPart_last parts :
  parts <> [] -> lastPart parts = Ok (List.last parts EmptyString).
Proof.
  intros Hne. unfold lastPart.
  destruct parts as [|p ps] using rev_ind; [congruence|].
  rewrite List.last_last, length_app. simpl.
  replace (length ps + 1 - 1)%nat with (length ps + 0)%nat by lia.
  now rewrite lookup_app_r, Nat.add_0_r, Nat.sub_diag by lia.
Qed.

Lemma lastPart_Split combo :
  lastPart (Split combo "+") = Ok (trailing combo).
Proof. apply lastPart_last, Split_nonempty. Qed.

Lemma trailing_app s1 s2 :
  trailing (s1 ++ String "+" s2)%string = trailing s2.
Proof.
  unfold trailing. rewrite Split_app.
  destruct (Split s2 "+") as [|p ps] eqn:E using rev_ind.
  - now apply Split_nonempty in E.
  - now rewrite app_assoc, !List.last_last.
Qed.

Lemma trailing_noPlus s : hasByte "+" s = false -> trailing s = s.
Proof. intros H. unfold trailing. now rewrite Split_noSep. Qed.

Lemma Join_snoc parts x sep :
  parts <> [] ->
  Join (parts ++ [x]) sep = (Join parts sep ++ sep ++ x)%string.
Proof.
  induction parts as [|p ps IH]; [congruence|]. intros _.
  destruct ps as [|q qs]; [reflexivity|].
  change ((p :: q :: qs) ++ [x])%list with (p :: ((q :: qs) ++ [x]))%list.
  rewrite Join_cons by (destruct qs; discriminate).
  rewrite IH by discriminate.
  rewrite (Join_cons p (q :: qs)) by discriminate.
  now rewrite !append_assoc.
Qed.

Lemma trailing_Join_snoc parts x :
  trailing (Join (parts ++ [x]) "+") = trailing x.
Proof.
  destruct parts as [|p ps]; [reflexivity|].
  rewrite Join_snoc by discriminate. apply trailing_app.
Qed.

Lemma CutPrefix_hasByte c prefix s rest :
  CutPrefix s prefix = Some rest -> hasByte c s = false ->
  hasByte c rest = false.
Proof.
  revert s. induction prefix as [|p prefix IH]; intros s; simpl.
  - now intros [= ->].
  - destruct s as [|c' s]; [discriminate|].
    destruct (Ascii.eqb c' p); [|discriminate].
    simpl. intros H [_ Hs]%orb_false_iff. eauto.
Qed.

Lemma TrimPrefix_hasByte c prefix s :
  hasByte c s = false -> hasByte c (TrimPrefix s prefix) = false.
Proof.
  unfold TrimPrefix. destruct (CutPrefix s prefix) eqn:E; [|easy].
  intros H. eapply CutPrefix_hasByte; eauto.
Qed.

End StringLemmas.

(** [normalizeCombo] splits and joins again without touching the parts:
    it is [strings.ToUpper]. *)
Lemma normalizeCombo_ToUpper c : normalizeCombo c = strings.ToUpper c.
Proof. unfold normalizeCombo. apply (Join_Split _ "+"%char). Qed.

Lemma trailing_candidateCombo order key :
  hasByte "+" key = false -> trailing (candidateCombo order key) = keyName key.
Proof.
  intros H. unfold candidateCombo, comboParts.
  rewrite trailing_Join_snoc. apply trailing_noPlus.
  now apply TrimPrefix_hasByte.
Qed.

(** ** The loop over [m.fired] *)

Lemma elem_of_keys {V : Type} (mp : gmap string V) (k : string) :
  k ∈ keys mp <-> is_Some (mp !! k).
Proof.
  unfold keys. rewrite list_elem_of_fmap. split.
  - intros [[k' v] [-> Hin]]. exists v. now apply elem_of_map_to_list.
  - intros [v Hv]. exists (k, v). split; [reflexivity|].
    now apply elem_of_map_to_list.
Qed.

(** Whatever keys the loop visits, it does not panic; it removes the
    visited combos whose last token is [suffix] and keeps the rest. *)
Lemma purgeLoop_lookup suffix combos : forall fired,
  exists fired',
    purgeLoop suffix combos fired = Ok fired' /\
    forall c, fired' !! c =
      if decide (c ∈ combos /\ trailing c = suffix) then None else fired !! c.
Proof.
  induction combos as [|combo rest IH]; intros fired; cbn [purgeLoop].
  - exists fired. split; [reflexivity|]. intros c.
    case_decide as H; [|reflexivity]. destruct H as [H _]. inversion H.
  - rewrite lastPart_Split. cbn [bind].
    destruct (String.eqb_spec (trailing combo) suffix) as [Heq|Hne].
    + destruct (IH (delete combo fired)) as (fired' & -> & Hl).
      exists fired'. split; [reflexivity|]. intros c. rewrite Hl.
      destruct (decide (c = combo)) as [->|Hc].
      * rewrite lookup_delete_eq.
        rewrite (decide_True (P := combo ∈ combo :: rest /\ _)); [|split; [left|assumption]].
        now case_decide.
      * rewrite lookup_delete_ne by congruence.
        apply decide_ext. rewrite elem_of_cons. tauto.
    + destruct (IH fired) as (fired' & -> & Hl).
      exists fired'. split; [reflexivity|]. intros c. rewrite Hl.
      apply decide_ext. rewrite elem_of_cons.
      split; [tauto|]. intros [[->|H] Ht]; [contradiction|tauto].
Qed.

(** On any order of [range m.fired] the loop gives the same map. *)
Lemma purgeLoop_range suffix fired order :
  rangeOrder fired order ->
  exists fired',
    purgeLoop suffix order fired = Ok fired' /\
    forall c, fired' !! c =
      if String.eqb (trailing c) suffix then None else fired !! c.
Proof.
  intros Hperm.
  destruct (purgeLoop_lookup suffix order fired) as (fired' & Heq & Hl).
  exists fired'. split; [assumption|]. intros c. rewrite Hl.
  destruct (String.eqb_spec (trailing c) suffix) as [Ht|Ht].
  - case_decide as H; [reflexivity|].
    destruct (fired !! c) eqn:E; [|reflexivity].
    exfalso. apply H. split; [|assumption].
    unfold rangeOrder in Hperm. rewrite Hperm. apply elem_of_keys. eauto.
  - case_decide as H; [tauto|reflexivity].
Qed.

Lemma rangeOrder_keys {V : Type} (mp : gmap string V) : rangeOrder mp (keys mp).
Proof. unfold rangeOrder. reflexivity. Qed.

(** ** The update of the pressed keys never panics *)

Lemma updatePressed_Ok m ev :
  exists m1,
    updatePressed m ev = Ok m1 /\
    bindings m1 = bindings m /\
    suppressRepeats m1 = suppressRepeats m /\
    pressed m1 =
      (if Type' ev =? Press then <[Key ev := true]> (pressed m)
       else if Type' ev =? Release then delete (Key ev) (pressed m)
       else pressed m) /\
    forall c, fired m1 !! c =
      if ((Type' ev =? Release) && suppressRepeats m
          && String.eqb (trailing c) (keyName (Key ev)))%bool
      then None else fired m !! c.
Proof.
  unfold updatePressed.
  destruct (Z.eqb_spec (Type' ev) Press) as [HP|HP].
  - eexists. split; [reflexivity|]. cbn [bindings suppressRepeats pressed fired].
    rewrite HP. split_and!; reflexivity.
  - destruct (Z.eqb_spec (Type' ev) Release) as [HR|HR].
    + destruct (suppressRepeats m) eqn:Hs.
      * destruct (purgeLoop_range (keyName (Key ev)) (fired m) _
                    (rangeOrder_keys _)) as (fired' & -> & Hl).
        eexists. split; [reflexivity|].
        cbn [bindings suppressRepeats pressed fired].
        split_and!; try reflexivity. intros c. now rewrite Hl.
      * eexists. split; [reflexivity|].
        cbn [bindings suppressRepeats pressed fired].
        split_and!; reflexivity.
    + exists m. split_and!; reflexivity.
Qed.

(** ** [HandleEvent], case by case *)

Lemma HandleEvent_press_modifier order m key :
  isModifier key = true ->
  HandleEvent order m (press key) = Ok (withPressed m key, []).
Proof. intros H. unfold HandleEvent. simpl. now rewrite H. Qed.

Lemma HandleEvent_press_key order m key :
  isModifier key = false ->
  HandleEvent order m (press key) =
    let m1 := withPressed m key in
    let combo := candidateCombo order key in
    if suppressRepeats m then
      if index (fired m) combo then Ok (m1, [])
      else Ok (withFired m1 combo, dispatch m combo)
    else Ok (m1, dispatch m combo).
Proof. intros H. unfold HandleEvent. simpl. now rewrite H. Qed.

Lemma HandleEvent_not_press order m ev :
  Type' ev <> Press ->
  exists m1, updatePressed m ev = Ok m1 /\ HandleEvent order m ev = Ok (m1, []).
Proof.
  intros H. destruct (updatePressed_Ok m ev) as (m1 & Hu & _).
  exists m1. split; [assumption|]. unfold HandleEvent. rewrite Hu. simpl.
  now destruct (Z.eqb_spec (Type' ev) Press).
Qed.

Lemma HandleEvent_other order m ev :
  Type' ev <> Press -> Type' ev <> Release ->
  HandleEvent order m ev = Ok (m, []).
Proof.
  intros HP HR. unfold HandleEvent, updatePressed.
  destruct (Z.eqb_spec (Type' ev) Press); [contradiction|].
  destruct (Z.eqb_spec (Type' ev) Release); [contradiction|].
  reflexivity.
Qed.

(** Every call returns; it never changes the bindings or the flag, and
    the pressed keys change as lines 176-179 say. *)
Lemma HandleEvent_Ok order m ev :
  exists m' cbs,
    HandleEvent order m ev = Ok (m', cbs) /\
    bindings m' = bindings m /\
    suppressRepeats m' = suppressRepeats m /\
    pressed m' =
      (if Type' ev =? Press then <[Key ev := true]> (pressed m)
       else if Type' ev =? Release then delete (Key ev) (pressed m)
       else pressed m).
Proof.
  destruct (Z.eqb_spec (Type' ev) Press) as [HP|HP].
  - destruct ev as [key ty]. simpl in HP. subst ty. fold (press key).
    destruct (isModifier key) eqn:Hm.
    + rewrite HandleEvent_press_modifier by assumption.
      eexists _, _. split; [reflexivity|]. split_and!; reflexivity.
    + rewrite HandleEvent_press_key by assumption. cbv zeta.
      destruct (suppressRepeats m) eqn:Hs; [destruct (index _ _)|];
        (eexists _, _; split; [reflexivity|]; split_and!;
         solve [reflexivity | exact Hs]).
  - destruct (HandleEvent_not_press order m ev HP) as (m1 & Hu & ->).
    destruct (updatePressed_Ok m ev) as (m1' & Hu' & Hb & Hs & Hp & _).
    assert (m1' = m1) as -> by congruence.
    exists m1, []. split; [reflexivity|].
    destruct (Z.eqb_spec (Type' ev) Press); [contradiction|].
    now split_and!.
Qed.

(** ** Held events, unknown events, totality *)

(** C7. For every manager state and every key, a Held (auto-repeat)
    event returns the manager as it was (pressed keys, fired combos,
    bindings and the suppression flag unchanged) and starts no callback,
    whatever the iteration order. *)
Theorem Hold_is_noop order m key :
  HandleEvent order m (hold key) = Ok (m, []).
Proof. apply HandleEvent_other; discriminate. Qed.

(** When every callback is a function, [HandleEvent] is total: for
    every manager state, every event and every iteration order it
    returns.  An event whose type is none of Release, Press, Hold leaves
    the manager unchanged and starts no callback; a Release of a key
    that is not pressed leaves the pressed keys unchanged and starts no
    callback.  (Nil callbacks: see [Nilable] at the end.) *)
Theorem HandleEvent_total order m ev :
  exists m' cbs,
    HandleEvent order m ev = Ok (m', cbs) /\
    (Type' ev <> Release -> Type' ev <> Press -> Type' ev <> Hold ->
     m' = m /\ cbs = []) /\
    (Type' ev = Release -> pressed m !! Key ev = None ->
     pressed m' = pressed m /\ cbs = []).
Proof.
  destruct (HandleEvent_Ok order m ev) as (m' & cbs & He & _ & _ & Hp).
  exists m', cbs. split; [assumption|]. split.
  - intros HR HP _. rewrite HandleEvent_other in He by assumption.
    split; congruence.
  - intros HR Hk. rewrite HR in Hp. simpl in Hp.
    split; [rewrite Hp; now apply delete_id|].
    destruct (HandleEvent_not_press order m ev) as (m1 & _ & He').
    + rewrite HR. discriminate.
    + congruence.
Qed.

Lemma HandleEvent_total_witness :
  exists m' cbs,
    HandleEvent [] NewManager (mkEvent "KEY_A" 7) = Ok (m', cbs) /\
    m' = NewManager /\ cbs = [].
Proof.
  destruct (HandleEvent_total [] NewManager (mkEvent "KEY_A" 7))
    as (m' & cbs & He & Hu & _).
  exists m', cbs. split; [exact He|].
  apply Hu; simpl; discriminate.
Defined.

(** ** Presses of a non-modifier key *)

(** C10. With repeat suppression enabled, a Press of a non-modifier key
    whose candidate combo is already in the fired set returns before the
    lookup of a callback: no callback is started, bindings, fired set
    and flag are unchanged, and the key has been inserted into the
    pressed set. *)
Theorem suppressed_press_updates_pressed order m key :
  isModifier key = false ->
  suppressRepeats m = true ->
  index (fired m) (candidateCombo order key) = true ->
  HandleEvent order m (press key) = Ok (withPressed m key, []) /\
  pressed (withPressed m key) !! key = Some true /\
  fired (withPressed m key) = fired m /\
  bindings (withPressed m key) = bindings m.
Proof.
  intros Hm Hs Hf. rewrite HandleEvent_press_key by assumption.
  cbv zeta. rewrite Hs, Hf. split_and!; try reflexivity.
  apply lookup_insert_eq.
Qed.

(** C8. A Press of a non-modifier key returns without panic and inserts
    the key into the pressed set; when the bindings have no entry for
    the candidate combo no callback is started; and with suppression
    enabled the candidate combo is in the fired set afterwards, whether
    or not a binding exists for it. *)
Theorem unregistered_press order m key :
  isModifier key = false ->
  exists m' cbs,
    HandleEvent order m (press key) = Ok (m', cbs) /\
    pressed m' = <[key := true]> (pressed m) /\
    (bindings m !! candidateCombo order key = None -> cbs = []) /\
    (suppressRepeats m = true ->
     index (fired m') (candidateCombo order key) = true).
Proof.
  intros Hm. rewrite HandleEvent_press_key by assumption. cbv zeta.
  unfold dispatch.
  destruct (suppressRepeats m) eqn:Hs.
  - destruct (index (fired m) (candidateCombo order key)) eqn:Hf.
    + eexists _, _. split; [reflexivity|]. split_and!; auto.
    + eexists _, _. split; [reflexivity|]. split_and!; auto.
      * now intros ->.
      * intros _. unfold index. simpl. now rewrite lookup_insert_eq.
  - eexists _, _. split; [reflexivity|]. split_and!; auto.
    + now intros ->.
    + discriminate.
Qed.

(** ** The pressed set after a sequence of events *)

Lemma releasedIn_eventsOf k evs :
  releasedIn k (eventsOf k evs) = releasedIn k evs.
Proof.
  induction evs as [|e evs IH]; [reflexivity|]. simpl.
  destruct (String.eqb (Key e) k) eqn:E; simpl; now rewrite ?E, IH.
Qed.

Lemma stillDown_eventsOf k evs :
  stillDown k (eventsOf k evs) = stillDown k evs.
Proof.
  induction evs as [|e evs IH]; [reflexivity|]. simpl.
  destruct (String.eqb (Key e) k) eqn:E; simpl;
    now rewrite ?E, ?releasedIn_eventsOf, IH.
Qed.

Lemma HandleEvents_pressed sched : forall m,
  exists m' cbs,
    HandleEvents m sched = Ok (m', cbs) /\
    forall k, pressed m' !! k =
      if stillDown k (List.map snd sched) then Some true
      else if releasedIn k (List.map snd sched) then None
      else pressed m !! k.
Proof.
  induction sched as [|[order e] sched IH]; intros m.
  - exists m, []. split; reflexivity.
  - destruct (HandleEvent_Ok order m e) as (m1 & cbs1 & He & _ & _ & Hp).
    destruct (IH m1) as (m' & cbs & Hes & Hl).
    exists m', (cbs1 ++ cbs)%list. cbn [HandleEvents].
    rewrite He. cbn [bind fst snd]. rewrite Hes. split; [reflexivity|].
    intros k. rewrite Hl, Hp. cbn [List.map snd stillDown releasedIn existsb].
    fold (releasedIn k (List.map snd sched)).
    destruct (stillDown k (List.map snd sched));
      [now rewrite orb_true_r|].
    destruct (releasedIn k (List.map snd sched));
      [now rewrite andb_false_r, orb_true_r|].
    rewrite andb_true_r, !orb_false_r.
    destruct (String.eqb_spec (Key e) k) as [->|Hk]; simpl.
    + destruct (Z.eqb_spec (Type' e) Press) as [HP|HP].
      * apply lookup_insert_eq.
      * destruct (Z.eqb_spec (Type' e) Release);
          [apply lookup_delete_eq|reflexivity].
    + destruct (Z.eqb_spec (Type' e) Press) as [HP|HP].
      * now apply lookup_insert_ne.
      * destruct (Z.eqb_spec (Type' e) Release);
          [now apply lookup_delete_ne|reflexivity].
Qed.

(** C6. From a manager whose pressed set is empty, a sequence of Pressed
    and Released events (no Held event) is processed without panic, and
    afterwards the pressed set holds exactly the keys that have been
    pressed and not released after that press.  It does not depend on
    how the events of distinct keys are interleaved: another such
    sequence with the same events per key gives the same pressed set. *)
Theorem pressed_after_events m sched :
  pressed m = ∅ ->
  noHeld sched ->
  exists m' cbs,
    HandleEvents m sched = Ok (m', cbs) /\
    (forall k, pressed m' !! k =
       if stillDown k (List.map snd sched) then Some true else None) /\
    (forall m2 sched2 m2' cbs2,
       pressed m2 = ∅ -> noHeld sched2 ->
       (forall k, eventsOf k (List.map snd sched2)
                  = eventsOf k (List.map snd sched)) ->
       HandleEvents m2 sched2 = Ok (m2', cbs2) ->
       pressed m2' = pressed m').
Proof.
  intros Hempty _.
  destruct (HandleEvents_pressed sched m) as (m' & cbs & He & Hl).
  assert (Hl' : forall k, pressed m' !! k =
            if stillDown k (List.map snd sched) then Some true else None).
  { intros k. rewrite Hl, Hempty, lookup_empty.
    destruct (stillDown _ _); [reflexivity|]. now destruct (releasedIn _ _). }
  exists m', cbs. split_and!; [assumption|assumption|].
  intros m2 sched2 m2' cbs2 Hempty2 _ Hsame He2.
  destruct (HandleEvents_pressed sched2 m2) as (m2'' & cbs2' & He2' & Hl2).
  assert (m2'' = m2') as -> by congruence.
  apply map_eq. intros k. rewrite Hl2, Hl', Hempty2, lookup_empty.
  rewrite <- (stillDown_eventsOf k (List.map snd sched2)), Hsame,
    stillDown_eventsOf.
  destruct (stillDown _ _); [reflexivity|]. now destruct (releasedIn _ _).
Qed.

(** ** The fired set and the pressed set *)

Lemma firedInv_NewManager : firedInv NewManager.
Proof.
  split; [|reflexivity]. intros combo [b Hb]. simpl in Hb.
  now rewrite lookup_empty in Hb.
Qed.

Lemma firedInv_SuppressRepeats m : firedInv m -> firedInv (SuppressRepeats m).
Proof. intros [H _]. split; [exact H|]. discriminate. Qed.

Lemma firedInv_RegisterBinding c cb m :
  firedInv m -> firedInv (RegisterBinding c cb m).
Proof. intros [H1 H2]. split; [exact H1|exact H2]. Qed.

Lemma firedInv_withPressed m key : firedInv m -> firedInv (withPressed m key).
Proof.
  intros [H1 H2]. split; [|exact H2]. simpl. intros combo Hc.
  destruct (H1 combo Hc) as (k & Hk & Hn). exists k. split; [|exact Hn].
  destruct (decide (key = k)) as [->|Hne].
  - rewrite lookup_insert_eq. eauto.
  - now rewrite lookup_insert_ne.
Qed.

Lemma firedInv_press order m key :
  firedInv m -> hasByte "+" key = false ->
  exists m' cbs,
    HandleEvent order m (press key) = Ok (m', cbs) /\ firedInv m'.
Proof.
  intros HI Hplus. pose proof (firedInv_withPressed m key HI) as HI1.
  destruct (isModifier key) eqn:Hm.
  - rewrite HandleEvent_press_modifier by assumption. eauto.
  - rewrite HandleEvent_press_key by assumption. cbv zeta.
    destruct (suppressRepeats m) eqn:Hs; [|eauto].
    destruct (index _ _); [eauto|].
    eexists _, _. split; [reflexivity|].
    destruct HI1 as [H1 _]. split; [|simpl; congruence].
    cbn [withFired fired pressed]. intros combo Hc.
    destruct (decide (candidateCombo order key = combo)) as [<-|Hne].
    + exists key. split.
      * simpl. rewrite lookup_insert_eq. eauto.
      * symmetry. now apply trailing_candidateCombo.
    + rewrite lookup_insert_ne in Hc by assumption. now apply H1.
Qed.

Lemma HandleEvent_release order m key :
  firedInv m ->
  exists m',
    HandleEvent order m (release key) = Ok (m', []) /\
    firedInv m' /\
    pressed m' = delete key (pressed m) /\
    forall combo, fired m' !! combo =
      if String.eqb (trailing combo) (keyName key) then None
      else fired m !! combo.
Proof.
  intros [H1 H2].
  destruct (HandleEvent_not_press order m (release key))
    as (m1 & Hu & He); [discriminate|].
  destruct (updatePressed_Ok m (release key))
    as (m1' & Hu' & _ & Hs & Hp & Hf).
  assert (m1' = m1) as -> by congruence.
  simpl in Hp, Hf.
  assert (Hf' : forall combo, fired m1 !! combo =
            if String.eqb (trailing combo) (keyName key) then None
            else fired m !! combo).
  { intros combo. rewrite Hf.
    destruct (suppressRepeats m) eqn:E; [reflexivity|].
    rewrite (H2 eq_refl), lookup_empty. simpl. now destruct (String.eqb _ _). }
  exists m1. split_and!; [assumption| |assumption|assumption].
  split.
  - intros combo Hc. rewrite Hf' in Hc.
    destruct (String.eqb_spec (trailing combo) (keyName key)) as [Ht|Ht];
      [now destruct Hc|].
    destruct (H1 combo Hc) as (k & Hk & Hn). exists k. split; [|exact Hn].
    rewrite Hp, lookup_delete_ne; [assumption|]. intros ->. congruence.
  - rewrite Hs. intros Hoff. apply map_eq. intros combo.
    rewrite Hf', (H2 Hoff), lookup_empty. now destruct (String.eqb _ _).
Qed.

(** C5.  The invariant [firedInv] holds of a new manager and is kept
    by [SuppressRepeats], by [RegisterBinding] and by [HandleEvent] on
    every event whose key, when pressed, has no ['+'] in its name:
    [Event.Key] is the evdev code name of the key (line 43), and no
    code name has a ['+'].  A Release removes from the fired set
    exactly the combos whose last token is the name of the released
    key, whatever modifiers are held; every other combo stays as it
    was. *)
Theorem fired_invariant order m ev :
  firedInv m ->
  (Type' ev = Press -> hasByte "+" (Key ev) = false) ->
  firedInv NewManager /\
  firedInv (SuppressRepeats m) /\
  (forall c cb, firedInv (RegisterBinding c cb m)) /\
  exists m' cbs,
    HandleEvent order m ev = Ok (m', cbs) /\
    firedInv m' /\
    (Type' ev = Release ->
     pressed m' = delete (Key ev) (pressed m) /\
     forall combo, fired m' !! combo =
       if String.eqb (trailing combo) (keyName (Key ev)) then None
       else fired m !! combo).
Proof.
  intros HI Hplus. split_and!.
  - apply firedInv_NewManager.
  - now apply firedInv_SuppressRepeats.
  - intros c cb. now apply firedInv_RegisterBinding.
  - destruct ev as [key ty]. simpl in Hplus.
    destruct (Z.eqb_spec ty Press) as [->|HP].
    + destruct (firedInv_press order m key HI (Hplus eq_refl))
        as (m' & cbs & He & HI').
      exists m', cbs. split_and!; [assumption|assumption|discriminate].
    + destruct (Z.eqb_spec ty Release) as [->|HR].
      * destruct (HandleEvent_release order m key HI)
          as (m' & He & HI' & Hp & Hf).
        exists m', []. split_and!; [assumption|assumption|].
        intros _. split; assumption.
      * exists m, []. split_and!; [|assumption|intros H; simpl in H; congruence].
        now apply HandleEvent_other.
Qed.

(** ** The usage of the README: [CTRL+ALT+T] *)

Lemma rangeOrder_ctrlFirst : rangeOrder pressedCtrlAltT ctrlFirst.
Proof. unfold rangeOrder. now vm_compute. Qed.

Lemma rangeOrder_altFirst : rangeOrder pressedCtrlAltT altFirst.
Proof.
  unfold rangeOrder.
  replace (keys pressedCtrlAltT) with ctrlFirst by now vm_compute.
  apply perm_swap.
Qed.

(** A concrete schedule is checked by evaluation: what is left are the
    orders of the presses that run the loop. *)
Ltac solve_validSchedule :=
  vm_compute; repeat split; intros;
  first [ discriminate | reflexivity | apply perm_swap ].

(** C1 (defect).  The binding of the README is registered under
    ["CTRL+ALT+T"].  With both modifiers down, the press of [T] ranges
    over the pressed set; when the range yields [KEY_LEFTALT] before
    [KEY_LEFTCTRL] the candidate combo is ["ALT+CTRL+T"]: the same
    tokens as the registered string, in another order.  The bindings
    have no entry for it and the callback is not started. *)
Theorem candidate_order_mismatch :
  normalizeCombo "CTRL+ALT+T" = "CTRL+ALT+T" /\
  bindings mgr !! "CTRL+ALT+T" = Some cbT /\
  HandleEvents mgr holdCtrlAlt
    = Ok (withPressed (withPressed mgr "KEY_LEFTCTRL") "KEY_LEFTALT", []) /\
  rangeOrder (pressed (downCtrlAltT mgr)) altFirst /\
  candidateCombo altFirst "KEY_T" = "ALT+CTRL+T" /\
  strings.Split (candidateCombo altFirst "KEY_T") "+"
    ≡ₚ strings.Split (normalizeCombo "CTRL+ALT+T") "+" /\
  bindings mgr !! candidateCombo altFirst "KEY_T" = None /\
  HandleEvent altFirst
    (withPressed (withPressed mgr "KEY_LEFTCTRL") "KEY_LEFTALT")
    (press "KEY_T")
    = Ok (downCtrlAltT mgr, []).
Proof.
  split_and!;
    [ now vm_compute.. | exact rangeOrder_altFirst | now vm_compute
    | vm_compute; apply perm_swap | now vm_compute | now vm_compute ].
Qed.

(** When the range yields [KEY_LEFTCTRL] first, the same press starts
    the callback. *)
Lemma candidate_in_order :
  rangeOrder (pressed (downCtrlAltT mgr)) ctrlFirst /\
  candidateCombo ctrlFirst "KEY_T" = "CTRL+ALT+T" /\
  HandleEvent ctrlFirst
    (withPressed (withPressed mgr "KEY_LEFTCTRL") "KEY_LEFTALT")
    (press "KEY_T")
    = Ok (downCtrlAltT mgr, [cbT]).
Proof.
  split_and!; [exact rangeOrder_ctrlFirst | now vm_compute..].
Qed.

(** C4 (defect).  Suppression enabled, [CTRL+ALT+T] bound.  When the
    ranges over the pressed set yield [KEY_LEFTALT] before
    [KEY_LEFTCTRL], the sequence press CTRL, press ALT, press T, press T
    starts no callback at all, and after the release of [T] the next
    press of [T] starts none either: the combo that is built, recorded
    and suppressed is ["ALT+CTRL+T"]. *)
Theorem suppression_order_mismatch :
  validSchedule mgrS (pressTTwice altFirst) /\
  HandleEvents mgrS (pressTTwice altFirst)
    = Ok (withFired (downCtrlAltT mgrS) "ALT+CTRL+T", []) /\
  validSchedule (withFired (downCtrlAltT mgrS) "ALT+CTRL+T")
    (releaseThenPressT altFirst) /\
  HandleEvents (withFired (downCtrlAltT mgrS) "ALT+CTRL+T")
    (releaseThenPressT altFirst)
    = Ok (withFired (downCtrlAltT mgrS) "ALT+CTRL+T", []).
Proof.
  split_and!; [solve_validSchedule | now vm_compute
              | solve_validSchedule | now vm_compute].
Qed.

(** When every range yields [KEY_LEFTCTRL] first, the callback is
    started once by the two presses of [T], and once more by the press
    that follows the release of [T]. *)
Lemma suppression_in_order :
  validSchedule mgrS (pressTTwice ctrlFirst) /\
  HandleEvents mgrS (pressTTwice ctrlFirst)
    = Ok (withFired (downCtrlAltT mgrS) "CTRL+ALT+T", [cbT]) /\
  validSchedule (withFired (downCtrlAltT mgrS) "CTRL+ALT+T")
    (releaseThenPressT ctrlFirst) /\
  HandleEvents (withFired (downCtrlAltT mgrS) "CTRL+ALT+T")
    (releaseThenPressT ctrlFirst)
    = Ok (withFired (downCtrlAltT mgrS) "CTRL+ALT+T", [cbT]).
Proof.
  split_and!; [solve_validSchedule | now vm_compute
              | solve_validSchedule | now vm_compute].
Qed.

(** ** Normalisation of a combo at registration *)

(** C2, as stated, fails: registering ["leftctrl+t"] stores the key
    ["LEFTCTRL+T"], which keeps the qualifier; the canonical form of the
    specification would be ["CTRL+T"]. *)
Lemma stored_key_not_canonical :
  bindings (RegisterBinding "leftctrl+t" cbT NewManager)
    = {[ "LEFTCTRL+T" := cbT ]} /\
  ~ canonicalForm "LEFTCTRL+T" "leftctrl+t" /\
  canonicalForm "CTRL+T" "leftctrl+t".
Proof.
  split_and!.
  - now vm_compute.
  - intros [Hperm _]. vm_compute in Hperm.
    assert (Hin : "LEFTCTRL" ∈ ["CTRL"; "T"]).
    { rewrite <- Hperm. left. }
    apply list_elem_of_In in Hin. simpl in Hin.
    destruct Hin as [H|[H|[]]]; discriminate H.
  - split; [now vm_compute|]. exists ["CTRL"], "T".
    split_and!; [now vm_compute|repeat constructor|reflexivity].
Qed.

Lemma upperByte_ASCII c :
  N.ltb (N_of_ascii c) 128 = true ->
  N.ltb (N_of_ascii (strings.upperByte c)) 128 = true.
Proof.
  destruct c as [[] [] [] [] [] [] [] []]; intros H;
    first [reflexivity | discriminate H].
Qed.

Lemma ToUpper_isASCII s :
  isASCII s = true -> isASCII (strings.ToUpper s) = true.
Proof.
  induction s as [|c s IH]; simpl; [reflexivity|].
  intros [Hc Hs]%andb_true_iff. now rewrite upperByte_ASCII, IH.
Qed.

(** C2, amended.  For an ASCII specifier, [RegisterBinding] stores the
    callback under the specifier with every token uppercased; the
    tokens are otherwise kept as written and in the written order (no
    qualifier is stripped, no token is moved).  Nothing else of the
    manager changes. *)
Theorem RegisterBinding_stores_upper combo cb m :
  isASCII combo = true ->
  bindings (RegisterBinding combo cb m)
    = <[normalizeCombo combo := cb]> (bindings m) /\
  strings.Split (normalizeCombo combo) "+"
    = List.map strings.ToUpper (strings.Split combo "+") /\
  pressed (RegisterBinding combo cb m) = pressed m /\
  fired (RegisterBinding combo cb m) = fired m /\
  suppressRepeats (RegisterBinding combo cb m) = suppressRepeats m.
Proof.
  intros _. split_and!; try reflexivity.
  rewrite normalizeCombo_ToUpper. apply Split_ToUpper.
Qed.

Lemma RegisterBinding_stores_upper_witness :
  bindings (RegisterBinding "ctrl+Alt+t" cbT NewManager)
    = <[normalizeCombo "ctrl+Alt+t" := cbT]> ∅ /\
  strings.Split (normalizeCombo "ctrl+Alt+t") "+" = ["CTRL"; "ALT"; "T"].
Proof.
  destruct (RegisterBinding_stores_upper "ctrl+Alt+t" cbT NewManager)
    as (Hb & Hs & _).
  - reflexivity.
  - split; [exact Hb|]. rewrite Hs. reflexivity.
Defined.

(** C3, as stated, fails: ["ALT+CTRL+T"] reorders the tokens of
    ["CTRL+ALT+T"], and the two normalise to different strings. *)
Lemma normalizeCombo_not_commutative :
  strings.Split "ALT+CTRL+T" "+" ≡ₚ strings.Split "CTRL+ALT+T" "+" /\
  normalizeCombo "CTRL+ALT+T" = "CTRL+ALT+T" /\
  normalizeCombo "ALT+CTRL+T" = "ALT+CTRL+T" /\
  normalizeCombo "CTRL+ALT+T" <> normalizeCombo "ALT+CTRL+T".
Proof.
  split_and!; [vm_compute; apply perm_swap|reflexivity|reflexivity|].
  vm_compute. discriminate.
Qed.

(** C3, amended.  On ASCII specifiers normalisation is idempotent; it
    gives an ASCII string, uppercases every token and keeps the tokens
    in the order written. *)
Theorem normalizeCombo_idempotent x :
  isASCII x = true ->
  isASCII (normalizeCombo x) = true /\
  normalizeCombo (normalizeCombo x) = normalizeCombo x /\
  strings.Split (normalizeCombo x) "+"
    = List.map strings.ToUpper (strings.Split x "+").
Proof.
  intros Hx. split_and!.
  - rewrite normalizeCombo_ToUpper. now apply ToUpper_isASCII.
  - rewrite !normalizeCombo_ToUpper. apply ToUpper_idem.
  - rewrite normalizeCombo_ToUpper. apply Split_ToUpper.
Qed.

Lemma normalizeCombo_idempotent_witness :
  normalizeCombo (normalizeCombo "Alt+ctrl+t") = normalizeCombo "Alt+ctrl+t" /\
  strings.Split (normalizeCombo "Alt+ctrl+t") "+" = ["ALT"; "CTRL"; "T"].
Proof.
  destruct (normalizeCombo_idempotent "Alt+ctrl+t") as (_ & Hi & Hs).
  - reflexivity.
  - split; [exact Hi|]. rewrite Hs. reflexivity.
Defined.

(** ** A key name with a ['+'] *)

(** Outside the vocabulary of evdev the invariant can be lost.  Under
    suppression, the press of a key named ["KEY_A+B"] records the combo
    ["A+B"]; its release looks for combos whose last token is ["A+B"],
    and the last token of ["A+B"] is ["B"]: the combo stays in the fired
    set while no key is pressed. *)
Lemma fired_invariant_fails_on_plus :
  firedInv (SuppressRepeats NewManager) /\
  HandleEvents (SuppressRepeats NewManager)
    [ (["KEY_A+B"], press "KEY_A+B"); ([], release "KEY_A+B") ]
    = Ok ({| bindings := ∅; pressed := ∅; fired := {[ "A+B" := true ]};
             suppressRepeats := true |}, []) /\
  ~ firedInv {| bindings := ∅; pressed := ∅; fired := {[ "A+B" := true ]};
                suppressRepeats := true |}.
Proof.
  split_and!.
  - apply firedInv_SuppressRepeats, firedInv_NewManager.
  - now vm_compute.
  - intros [H _]. destruct (H "A+B") as (k & [b Hk] & _).
    + simpl. rewrite lookup_singleton_eq. eauto.
    + simpl in Hk. now rewrite lookup_empty in Hk.
Qed.

(** ** Instances of the theorems above *)

Lemma firedInv_firedOnce : firedInv firedOnce.
Proof.
  split; [|discriminate]. intros combo [b Hb]. exists "KEY_T".
  split; [exists true; now vm_compute|].
  destruct (decide ("CTRL+ALT+T" = combo)) as [<-|Hne]; [now vm_compute|].
  simpl in Hb. rewrite lookup_insert_ne, lookup_empty in Hb by assumption.
  discriminate Hb.
Defined.

Lemma firedInv_holdCtrlAlt :
  firedInv (withPressed (withPressed mgrS "KEY_LEFTCTRL") "KEY_LEFTALT").
Proof.
  split; [|discriminate]. intros combo [b Hb]. simpl in Hb.
  rewrite lookup_empty in Hb. discriminate Hb.
Defined.

Lemma fired_invariant_witness :
  (exists m' cbs,
     HandleEvent ctrlFirst
       (withPressed (withPressed mgrS "KEY_LEFTCTRL") "KEY_LEFTALT")
       (press "KEY_T") = Ok (m', cbs) /\
     firedInv m') /\
  (exists m' cbs,
     HandleEvent [] firedOnce (release "KEY_T") = Ok (m', cbs) /\
     firedInv m' /\
     pressed m' !! "KEY_T" = None /\
     fired m' !! "CTRL+ALT+T" = None).
Proof.
  split.
  - destruct (fired_invariant ctrlFirst
                (withPressed (withPressed mgrS "KEY_LEFTCTRL") "KEY_LEFTALT")
                (press "KEY_T"))
      as (_ & _ & _ & m' & cbs & He & HI & _).
    + exact firedInv_holdCtrlAlt.
    + intros _. reflexivity.
    + exists m', cbs. split; [exact He|exact HI].
  - destruct (fired_invariant [] firedOnce (release "KEY_T"))
      as (_ & _ & _ & m' & cbs & He & HI & Hr).
    + exact firedInv_firedOnce.
    + intros H. discriminate H.
    + exists m', cbs. destruct (Hr eq_refl) as [Hp Hf].
      split_and!; [exact He|exact HI| |].
      * rewrite Hp. apply lookup_delete_eq.
      * rewrite Hf. reflexivity.
Defined.

Lemma pressed_after_events_witness :
  exists m' cbs,
    HandleEvents NewManager
      [ (["KEY_A"], press "KEY_A");
        (["KEY_A"; "KEY_B"], press "KEY_B");
        ([], release "KEY_A") ] = Ok (m', cbs) /\
    pressed m' !! "KEY_A" = None /\
    pressed m' !! "KEY_B" = Some true.
Proof.
  destruct (pressed_after_events NewManager
              [ (["KEY_A"], press "KEY_A");
                (["KEY_A"; "KEY_B"], press "KEY_B");
                ([], release "KEY_A") ])
    as (m' & cbs & He & Hl & _).
  - reflexivity.
  - repeat (constructor; [first [left; reflexivity | right; reflexivity]|]).
    constructor.
  - exists m', cbs. split_and!; [exact He| |]; rewrite Hl; reflexivity.
Defined.

Lemma unregistered_press_witness :
  exists m' cbs,
    HandleEvent ["KEY_LEFTCTRL"; "KEY_X"]
      (withPressed mgrS "KEY_LEFTCTRL") (press "KEY_X") = Ok (m', cbs) /\
    cbs = [] /\
    pressed m' !! "KEY_X" = Some true /\
    index (fired m') "CTRL+X" = true.
Proof.
  destruct (unregistered_press ["KEY_LEFTCTRL"; "KEY_X"]
              (withPressed mgrS "KEY_LEFTCTRL") "KEY_X")
    as (m' & cbs & He & Hp & Hn & Hf).
  - reflexivity.
  - exists m', cbs. split_and!; [exact He| | |].
    + apply Hn. now vm_compute.
    + rewrite Hp. apply lookup_insert_eq.
    + apply Hf. reflexivity.
Defined.

Lemma suppressed_press_witness :
  HandleEvent ctrlFirst firedOnce (press "KEY_T")
    = Ok (withPressed firedOnce "KEY_T", []) /\
  pressed (withPressed firedOnce "KEY_T") !! "KEY_T" = Some true /\
  fired (withPressed firedOnce "KEY_T") = fired firedOnce /\
  bindings (withPressed firedOnce "KEY_T") = bindings firedOnce.
Proof.
  apply (suppressed_press_updates_pressed ctrlFirst firedOnce "KEY_T").
  - reflexivity.
  - reflexivity.
  - now vm_compute.
Defined.

(** * Further properties of the package *)

(** ** [EventType.String] *)

(** X1. [String] names the three event types by three different
    strings, none of them "Unknown", and returns "Unknown" exactly for
    the other values of the type. *)
Theorem EventType_String_names (e e' : EventType) :
  EventType_String Release = "Release" /\
  EventType_String Press = "Press" /\
  EventType_String Hold = "Hold" /\
  (EventType_String e = "Unknown" <->
   e <> Release /\ e <> Press /\ e <> Hold) /\
  (EventType_String e = EventType_String e' ->
   EventType_String e <> "Unknown" -> e = e').
Proof.
  assert (Hcases : forall x : EventType,
            (x = Press /\ EventType_String x = "Press") \/
            (x = Release /\ EventType_String x = "Release") \/
            (x = Hold /\ EventType_String x = "Hold") \/
            (x <> Release /\ x <> Press /\ x <> Hold /\
             EventType_String x = "Unknown")).
  { intros x. unfold EventType_String.
    destruct (Z.eqb_spec x Press); [auto|].
    destruct (Z.eqb_spec x Release); [auto|].
    destruct (Z.eqb_spec x Hold); [auto|]. right. right. right. auto. }
  split_and!; try reflexivity.
  - split.
    + intros H. destruct (Hcases e) as [[_ E]|[[_ E]|[[_ E]|(?&?&?&_)]]];
        try (rewrite E in H; discriminate H). auto.
    + intros (HR & HP & HH).
      destruct (Hcases e) as [[? _]|[[? _]|[[? _]|(_&_&_&E)]]];
        try contradiction. exact E.
  - intros Heq Hk.
    destruct (Hcases e) as [[-> E]|[[-> E]|[[-> E]|(_&_&_&E)]]];
      [| | |contradiction];
      destruct (Hcases e') as [[-> E']|[[-> E']|[[-> E']|(_&_&_&E')]]];
      try reflexivity; rewrite E, E' in Heq; discriminate Heq.
Qed.

Lemma EventType_String_names_witness :
  EventType_String 7 = "Unknown" /\
  (EventType_String Hold = EventType_String 2 -> Hold = 2).
Proof.
  destruct (EventType_String_names 7 7) as (_ & _ & _ & [_ H] & _).
  destruct (EventType_String_names Hold 2) as (_ & _ & _ & _ & Hinj).
  split.
  - apply H. repeat split; discriminate.
  - intros Heq. apply Hinj; [exact Heq|discriminate].
Defined.

(** ** Modifier keys *)

Lemma isModifier_cases key :
  isModifier key = true ->
  key = "KEY_LEFTCTRL" \/ key = "KEY_RIGHTCTRL" \/
  key = "KEY_LEFTSHIFT" \/ key = "KEY_RIGHTSHIFT" \/
  key = "KEY_LEFTALT" \/ key = "KEY_RIGHTALT" \/
  key = "KEY_LEFTMETA" \/ key = "KEY_RIGHTMETA".
Proof.
  unfold isModifier.
  repeat match goal with
  | |- context [String.eqb key ?s] =>
      destruct (String.eqb_spec key s); [tauto|]
  end.
  discriminate.
Qed.

Lemma modifierName_noPlus key :
  isModifier key = true -> hasByte "+" (modifierName key) = false.
Proof.
  intros H. apply isModifier_cases in H.
  repeat destruct H as [->|H]; try subst key; reflexivity.
Qed.

(** X2. The name of a modifier key is one of CTRL, SHIFT, ALT, META:
    [modifierName] removes the prefix [KEY_] and the side, so the left
    and the right key of a modifier have the same name, whereas
    [keyName] removes the prefix only and keeps the side. *)
Theorem modifierName_of_modifier key :
  isModifier key = true ->
  In (modifierName key) ["CTRL"; "SHIFT"; "ALT"; "META"] /\
  (keyName key = ("LEFT" ++ modifierName key)%string \/
   keyName key = ("RIGHT" ++ modifierName key)%string) /\
  key = ("KEY_" ++ keyName key)%string.
Proof.
  intros H. apply isModifier_cases in H.
  repeat destruct H as [->|H]; try subst key;
    (split_and!; [simpl; tauto | (left; reflexivity) || (right; reflexivity)
                 | reflexivity]).
Qed.

Lemma modifierName_of_modifier_witness :
  In (modifierName "KEY_RIGHTALT") ["CTRL"; "SHIFT"; "ALT"; "META"] /\
  modifierName "KEY_RIGHTALT" = modifierName "KEY_LEFTALT".
Proof.
  destruct (modifierName_of_modifier "KEY_RIGHTALT") as (H & _ & _).
  - reflexivity.
  - split; [exact H|reflexivity].
Defined.

(** ** The candidate combo *)

Lemma comboParts_filter order key :
  comboParts order key
  = (List.map modifierName (List.filter isModifier order) ++ [keyName key])%list.
Proof.
  unfold comboParts. f_equal.
  enough (H : forall acc,
            fold_left
              (fun parts k =>
                 if isModifier k then (parts ++ [modifierName k])%list
                 else parts) order acc
            = (acc ++ List.map modifierName (List.filter isModifier order))%list)
    by apply (H []).
  induction order as [|k order IH]; intros acc; simpl.
  - now rewrite app_nil_r.
  - rewrite IH. destruct (isModifier k); [|reflexivity].
    simpl. now rewrite <- app_assoc.
Qed.

Lemma Split_Join parts :
  parts <> [] ->
  Forall (fun p => hasByte "+" p = false) parts ->
  strings.Split (strings.Join parts "+") "+" = parts.
Proof.
  induction parts as [|p ps IH]; [congruence|]. intros _ Hall.
  apply Forall_cons_1 in Hall as [Hp Hps].
  destruct ps as [|q qs]; [now apply Split_noSep|].
  rewrite Join_cons by discriminate.
  change (p ++ "+" ++ strings.Join (q :: qs) "+")%string
    with (p ++ String "+" (strings.Join (q :: qs) "+"))%string.
  rewrite Split_app, Split_noSep by assumption.
  rewrite IH by (discriminate || assumption). reflexivity.
Qed.

Lemma filter_Permutation {A : Type} (f : A -> bool) (l1 l2 : list A) :
  l1 ≡ₚ l2 -> List.filter f l1 ≡ₚ List.filter f l2.
Proof.
  induction 1 as [|x l l' _ IH|x y l|l l' l'' _ IH1 _ IH2]; simpl.
  - reflexivity.
  - destruct (f x); [now constructor|assumption].
  - destruct (f x), (f y); try reflexivity. apply perm_swap.
  - now transitivity (List.filter f l').
Qed.

Lemma Permutation_all_equal {A : Type} (l1 l2 : list A) :
  l1 ≡ₚ l2 ->
  (forall x y, In x l1 -> In y l1 -> x = y) ->
  l1 = l2.
Proof.
  induction 1 as [|x l l' Hp IH|x y l|l l' l'' Hp1 IH1 Hp2 IH2]; intros Heq.
  - reflexivity.
  - f_equal. apply IH. intros a b Ha Hb. apply Heq; now right.
  - assert (x = y) as -> by (apply Heq; simpl; auto). reflexivity.
  - pose proof (IH1 Heq) as Hl. subst l'. now apply IH2.
Qed.

(** X3. The candidate combo parses back into its parts: for a key
    without ['+'] in its name the ['+']-separated tokens of the
    candidate are the names of the pressed modifier keys, in the order
    of the iteration, followed by the name of the key.  There is one
    token per pressed modifier key (both keys of a modifier give two
    tokens), the key is the last token, and another iteration order
    gives the same tokens in another order. *)
Theorem candidate_tokens order order2 key :
  hasByte "+" key = false ->
  strings.Split (candidateCombo order key) "+"
    = (List.map modifierName (List.filter isModifier order)
       ++ [keyName key])%list /\
  length (strings.Split (candidateCombo order key) "+")
    = S (length (List.filter isModifier order)) /\
  trailing (candidateCombo order key) = keyName key /\
  (order ≡ₚ order2 ->
   strings.Split (candidateCombo order key) "+"
     ≡ₚ strings.Split (candidateCombo order2 key) "+").
Proof.
  intros Hkey.
  assert (Hsplit : forall o,
            strings.Split (candidateCombo o key) "+"
            = (List.map modifierName (List.filter isModifier o)
               ++ [keyName key])%list).
  { intros o. unfold candidateCombo. rewrite comboParts_filter.
    apply Split_Join; [now destruct (List.map _ _)|].
    apply Forall_app. split.
    - apply List.Forall_forall. intros n [k [<- Hk]]%in_map_iff.
      apply filter_In in Hk as [_ Hk]. now apply modifierName_noPlus.
    - constructor; [|constructor]. now apply TrimPrefix_hasByte. }
  split_and!.
  - apply Hsplit.
  - rewrite Hsplit, length_app, length_map. simpl. lia.
  - now apply trailing_candidateCombo.
  - intros Hperm. rewrite !Hsplit.
    apply Permutation_app_tail, Permutation_map.
    now apply filter_Permutation.
Qed.

Lemma candidate_tokens_witness :
  strings.Split
    (candidateCombo ["KEY_LEFTCTRL"; "KEY_A"; "KEY_RIGHTCTRL"] "KEY_A") "+"
  = ["CTRL"; "CTRL"; "A"].
Proof.
  destruct (candidate_tokens ["KEY_LEFTCTRL"; "KEY_A"; "KEY_RIGHTCTRL"]
              [] "KEY_A") as (H & _).
  - reflexivity.
  - exact H.
Defined.

(** X4. The candidate combo does not depend on the iteration order
    when the pressed modifier keys all have the same name (one modifier
    key, or the left and right key of one modifier). *)
Theorem candidate_single_modifier order order2 key :
  order ≡ₚ order2 ->
  (forall k1 k2, In k1 order -> In k2 order ->
     isModifier k1 = true -> isModifier k2 = true ->
     modifierName k1 = modifierName k2) ->
  candidateCombo order key = candidateCombo order2 key.
Proof.
  intros Hperm Hsame. unfold candidateCombo.
  rewrite !comboParts_filter. do 2 f_equal.
  apply Permutation_all_equal.
  - now apply Permutation_map, filter_Permutation.
  - intros x y [k1 [<- H1]]%in_map_iff [k2 [<- H2]]%in_map_iff.
    apply filter_In in H1 as [? ?]. apply filter_In in H2 as [? ?].
    now apply Hsame.
Qed.

Lemma candidate_single_modifier_witness :
  candidateCombo ["KEY_LEFTMETA"; "KEY_O"] "KEY_O"
  = candidateCombo ["KEY_O"; "KEY_LEFTMETA"] "KEY_O".
Proof.
  apply candidate_single_modifier.
  - apply perm_swap.
  - intros k1 k2 H1 H2 M1 M2. simpl in H1, H2.
    destruct H1 as [<-|[<-|[]]]; destruct H2 as [<-|[<-|[]]];
      first [reflexivity | discriminate M1 | discriminate M2].
Defined.

(** ** What one call of [HandleEvent] may do *)

Lemma Manager_eq (m1 m2 : Manager) :
  bindings m1 = bindings m2 -> pressed m1 = pressed m2 ->
  fired m1 = fired m2 -> suppressRepeats m1 = suppressRepeats m2 ->
  m1 = m2.
Proof. destruct m1, m2. simpl. now intros -> -> -> ->. Qed.

Lemma dispatch_cases m combo :
  (bindings m !! combo = None /\ dispatch m combo = []) \/
  (exists cb, bindings m !! combo = Some cb /\ dispatch m combo = [cb]).
Proof. unfold dispatch. destruct (bindings m !! combo); eauto. Qed.

Lemma HandleEvent_step order m ev :
  exists m' cbs,
    HandleEvent order m ev = Ok (m', cbs) /\
    bindings m' = bindings m /\
    suppressRepeats m' = suppressRepeats m /\
    (cbs = [] \/
     exists cb,
       cbs = [cb] /\ Type' ev = Press /\ isModifier (Key ev) = false /\
       bindings m !! candidateCombo order (Key ev) = Some cb /\
       (suppressRepeats m = true ->
        index (fired m) (candidateCombo order (Key ev)) = false)).
Proof.
  destruct (Z.eqb_spec (Type' ev) Press) as [HP|HP].
  - destruct ev as [key ty]. simpl in HP. subst ty. fold (press key).
    destruct (isModifier key) eqn:Hm.
    + rewrite HandleEvent_press_modifier by assumption.
      eexists _, _. split; [reflexivity|]. split_and!; auto.
    + rewrite HandleEvent_press_key by assumption. cbv zeta.
      destruct (suppressRepeats m) eqn:Hs;
        [destruct (index _ _) eqn:Hf|];
        (eexists _, _; split; [reflexivity|]; split_and!; auto);
        destruct (dispatch_cases m (candidateCombo order key))
          as [[_ ->]|(cb & Hb & ->)]; auto;
        right; exists cb; simpl; split_and!; auto; discriminate.
  - destruct (HandleEvent_not_press order m ev HP) as (m1 & Hu & ->).
    destruct (updatePressed_Ok m ev) as (m1' & Hu' & Hb & Hs & _).
    assert (m1' = m1) as -> by congruence.
    exists m1, []. split_and!; auto.
Qed.

(** X5. A call of [HandleEvent] never changes the bindings or the
    suppression flag, and starts at most one callback.  A callback is
    started only by the press of a non-modifier key, it is the one bound
    to the candidate combo, and under suppression that combo was not in
    the fired set: a release, a held key, an unknown event or the press
    of a modifier starts none. *)
Theorem HandleEvent_callbacks order m ev :
  exists m' cbs,
    HandleEvent order m ev = Ok (m', cbs) /\
    bindings m' = bindings m /\
    suppressRepeats m' = suppressRepeats m /\
    (cbs = [] \/
     exists cb,
       cbs = [cb] /\ Type' ev = Press /\ isModifier (Key ev) = false /\
       bindings m !! candidateCombo order (Key ev) = Some cb /\
       (suppressRepeats m = true ->
        index (fired m) (candidateCombo order (Key ev)) = false)).
Proof. apply HandleEvent_step. Qed.

(** X6. While suppression is off, no event changes the fired set, and
    every press of a non-modifier key whose candidate combo is bound
    starts the callback: repeated presses fire again each time. *)
Theorem without_suppression order m ev :
  suppressRepeats m = false ->
  exists m' cbs,
    HandleEvent order m ev = Ok (m', cbs) /\
    fired m' = fired m /\
    (Type' ev = Press -> isModifier (Key ev) = false ->
     forall cb, bindings m !! candidateCombo order (Key ev) = Some cb ->
     cbs = [cb]).
Proof.
  intros Hs.
  destruct (Z.eqb_spec (Type' ev) Press) as [HP|HP].
  - destruct ev as [key ty]. simpl in HP. subst ty. fold (press key).
    destruct (isModifier key) eqn:Hm.
    + rewrite HandleEvent_press_modifier by assumption.
      eexists _, _. split_and!; [reflexivity..|]. simpl. congruence.
    + rewrite HandleEvent_press_key by assumption. cbv zeta. rewrite Hs.
      eexists _, _. split_and!; [reflexivity..|].
      simpl. intros _ _ cb Hb. unfold dispatch. now rewrite Hb.
  - destruct (HandleEvent_not_press order m ev HP) as (m1 & Hu & ->).
    destruct (updatePressed_Ok m ev) as (m1' & Hu' & _ & _ & _ & Hf).
    assert (m1' = m1) as -> by congruence.
    exists m1, []. split_and!; [reflexivity| |contradiction].
    apply map_eq. intros c. rewrite Hf, Hs, andb_false_r. reflexivity.
Qed.

Lemma without_suppression_witness :
  exists m',
    HandleEvent ctrlFirst (downCtrlAltT mgr) (press "KEY_T") = Ok (m', [cbT]) /\
    fired m' = ∅.
Proof.
  destruct (without_suppression ctrlFirst (downCtrlAltT mgr) (press "KEY_T"))
    as (m' & cbs & He & Hf & Hc).
  - reflexivity.
  - exists m'. rewrite (Hc eq_refl eq_refl cbT) in He by now vm_compute.
    split; [exact He|exact Hf].
Defined.

(** ** A combo with one modifier *)

Lemma NoDup_singleton_all {A : Type} (a : A) (l : list A) :
  List.NoDup l -> (forall x, In x l -> x = a) -> In a l -> l = [a].
Proof.
  intros Hnd Hall Hin. destruct l as [|x l]; [destruct Hin|].
  assert (x = a) as -> by (apply Hall; now left).
  destruct l as [|y l]; [reflexivity|].
  assert (y = a) as -> by (apply Hall; right; now left).
  inversion Hnd as [|? ? Hn _]. exfalso. apply Hn. now left.
Qed.

Lemma rangeOrder_In {V : Type} (mp : gmap string V) order k :
  rangeOrder mp order -> (In k order <-> is_Some (mp !! k)).
Proof.
  unfold rangeOrder. intros Hperm.
  rewrite <- list_elem_of_In, Hperm. apply elem_of_keys.
Qed.

Lemma rangeOrder_NoDup {V : Type} (mp : gmap string V) order :
  rangeOrder mp order -> List.NoDup order.
Proof.
  unfold rangeOrder, keys. intros Hperm.
  apply NoDup_ListNoDup. rewrite Hperm. apply NoDup_fst_map_to_list.
Qed.

Lemma candidate_one_modifier order (P : gmap string bool) modk key :
  isModifier modk = true -> isModifier key = false ->
  is_Some (P !! modk) ->
  (forall k, is_Some (P !! k) -> isModifier k = true -> k = modk) ->
  rangeOrder (<[key := true]> P) order ->
  candidateCombo order key
  = (modifierName modk ++ "+" ++ keyName key)%string.
Proof.
  intros Hmod Hkey Hin Hone Hrange.
  unfold candidateCombo. rewrite comboParts_filter.
  rewrite (NoDup_singleton_all modk (List.filter isModifier order)).
  - reflexivity.
  - apply List.NoDup_filter. eapply rangeOrder_NoDup, Hrange.
  - intros k [Hk Hm]%filter_In.
    apply (rangeOrder_In _ _ k Hrange) in Hk.
    destruct (decide (key = k)) as [->|Hne]; [congruence|].
    rewrite lookup_insert_ne in Hk by assumption. now apply Hone.
  - apply filter_In. split; [|assumption].
    apply (rangeOrder_In _ _ modk Hrange).
    rewrite lookup_insert_ne; [assumption|]. intros ->. congruence.
Qed.

(** X7. A binding with one modifier fires on every iteration order:
    when exactly one modifier key is pressed, a combo registered as the
    name of that modifier, ['+'], the name of the key is started by the
    press of the key, unless suppression has the combo in the fired
    set. *)
Theorem one_modifier_binding_fires order m c cb modk key :
  isModifier modk = true -> isModifier key = false ->
  is_Some (pressed m !! modk) ->
  (forall k, is_Some (pressed m !! k) -> isModifier k = true -> k = modk) ->
  rangeOrder (<[key := true]> (pressed m)) order ->
  normalizeCombo c = (modifierName modk ++ "+" ++ keyName key)%string ->
  index (fired m) (normalizeCombo c) = false ->
  exists m',
    HandleEvent order (RegisterBinding c cb m) (press key) = Ok (m', [cb]).
Proof.
  intros Hmod Hkey Hin Hone Hrange Hc Hf.
  rewrite HandleEvent_press_key by assumption. cbv zeta.
  rewrite (candidate_one_modifier order (pressed m) modk key)
    by assumption.
  rewrite <- Hc.
  assert (Hd : dispatch (RegisterBinding c cb m) (normalizeCombo c) = [cb]).
  { unfold dispatch. simpl. now rewrite lookup_insert_eq. }
  rewrite Hd. change (fired (RegisterBinding c cb m)) with (fired m).
  rewrite Hf. destruct (suppressRepeats _); eauto.
Qed.

Lemma one_modifier_binding_fires_witness :
  exists m',
    HandleEvent ["KEY_O"; "KEY_RIGHTMETA"]
      (RegisterBinding "meta+o" cbT (withPressed NewManager "KEY_RIGHTMETA"))
      (press "KEY_O") = Ok (m', [cbT]).
Proof.
  apply (one_modifier_binding_fires _ _ _ _ "KEY_RIGHTMETA").
  - reflexivity.
  - reflexivity.
  - exists true. now vm_compute.
  - intros k [b Hb] _. simpl in Hb.
    destruct (decide ("KEY_RIGHTMETA" = k)) as [<-|Hne]; [reflexivity|].
    rewrite lookup_insert_ne, lookup_empty in Hb by assumption.
    discriminate Hb.
  - unfold rangeOrder. vm_compute. first [reflexivity | apply perm_swap].
  - now vm_compute.
  - now vm_compute.
Defined.

(** ** Press and release of one key *)

Lemma HandleEvent_release_fields order m key :
  exists m',
    HandleEvent order m (release key) = Ok (m', []) /\
    bindings m' = bindings m /\
    suppressRepeats m' = suppressRepeats m /\
    pressed m' = delete key (pressed m) /\
    forall c, fired m' !! c =
      if (suppressRepeats m && String.eqb (trailing c) (keyName key))%bool
      then None else fired m !! c.
Proof.
  destruct (HandleEvent_not_press order m (release key))
    as (m1 & Hu & He); [discriminate|].
  destruct (updatePressed_Ok m (release key))
    as (m1' & Hu' & Hb & Hs & Hp & Hf).
  assert (m1' = m1) as -> by congruence.
  exists m1. split_and!; auto.
Qed.

Lemma index_insert_eq (mp : gmap string bool) k :
  index (<[k := true]> mp) k = true.
Proof. unfold index. now rewrite lookup_insert_eq. Qed.

(** X8. Suppression, for any bound combo and as long as the iteration
    order is the same at each press: the first press of the key starts
    the callback and records the combo; a second press without a
    release starts none and changes nothing but the pressed set; the
    release of the key starts none and takes the combo out of the fired
    set; the next press starts the callback again. *)
Theorem suppression_once_per_press order order' m key cb :
  isModifier key = false ->
  hasByte "+" key = false ->
  suppressRepeats m = true ->
  index (fired m) (candidateCombo order key) = false ->
  bindings m !! candidateCombo order key = Some cb ->
  let combo := candidateCombo order key in
  let m1 := withFired (withPressed m key) combo in
  let m2 := withPressed m1 key in
  HandleEvent order m (press key) = Ok (m1, [cb]) /\
  HandleEvent order m1 (press key) = Ok (m2, []) /\
  exists m3 m4,
    HandleEvent order' m2 (release key) = Ok (m3, []) /\
    fired m3 !! combo = None /\
    HandleEvent order m3 (press key) = Ok (m4, [cb]) /\
    fired m4 !! combo = Some true.
Proof.
  intros Hm Hplus Hs Hf Hb. cbv zeta.
  set (combo := candidateCombo order key) in *.
  set (m1 := withFired (withPressed m key) combo).
  set (m2 := withPressed m1 key).
  assert (H1 : HandleEvent order m (press key) = Ok (m1, [cb])).
  { rewrite HandleEvent_press_key by assumption. cbv zeta.
    fold combo. rewrite Hs, Hf. unfold dispatch. now rewrite Hb. }
  assert (H2 : HandleEvent order m1 (press key) = Ok (m2, [])).
  { rewrite HandleEvent_press_key by assumption. cbv zeta.
    fold combo. change (suppressRepeats m1) with (suppressRepeats m).
    rewrite Hs. unfold m1 at 1. cbn [fired withFired].
    now rewrite index_insert_eq. }
  destruct (HandleEvent_release_fields order' m2 key)
    as (m3 & H3 & Hb3 & Hs3 & _ & Hf3).
  assert (Hf3' : fired m3 !! combo = None).
  { rewrite Hf3.
    change (suppressRepeats m2) with (suppressRepeats m). rewrite Hs.
    unfold combo. rewrite trailing_candidateCombo by assumption.
    now rewrite String.eqb_refl. }
  split_and!; [exact H1|exact H2|].
  exists m3, (withFired (withPressed m3 key) combo).
  split_and!; [exact H3|exact Hf3'| |apply lookup_insert_eq].
  rewrite HandleEvent_press_key by assumption. cbv zeta. fold combo.
  rewrite Hs3. change (suppressRepeats m2) with (suppressRepeats m).
  rewrite Hs. unfold index. rewrite Hf3'. unfold dispatch. rewrite Hb3.
  change (bindings m2) with (bindings m). now rewrite Hb.
Qed.

Lemma suppression_once_per_press_witness :
  HandleEvent ctrlFirst
    (withPressed (withPressed mgrS "KEY_LEFTCTRL") "KEY_LEFTALT")
    (press "KEY_T") = Ok (firedOnce, [cbT]) /\
  HandleEvent ctrlFirst firedOnce (press "KEY_T")
    = Ok (withPressed firedOnce "KEY_T", []) /\
  exists m3 m4,
    HandleEvent [] (withPressed firedOnce "KEY_T") (release "KEY_T")
      = Ok (m3, []) /\
    fired m3 !! "CTRL+ALT+T" = None /\
    HandleEvent ctrlFirst m3 (press "KEY_T") = Ok (m4, [cbT]) /\
    fired m4 !! "CTRL+ALT+T" = Some true.
Proof.
  apply (suppression_once_per_press ctrlFirst []
           (withPressed (withPressed mgrS "KEY_LEFTCTRL") "KEY_LEFTALT")
           "KEY_T" cbT); now vm_compute.
Defined.

Lemma without_suppression_fired order m ev :
  suppressRepeats m = false ->
  exists m' cbs, HandleEvent order m ev = Ok (m', cbs) /\ fired m' = fired m.
Proof.
  intros Hs.
  destruct (Z.eqb_spec (Type' ev) Press) as [HP|HP].
  - destruct ev as [key ty]. simpl in HP. subst ty. fold (press key).
    destruct (isModifier key) eqn:Hm.
    + rewrite HandleEvent_press_modifier by assumption. eauto.
    + rewrite HandleEvent_press_key by assumption. cbv zeta. rewrite Hs.
      eauto.
  - destruct (HandleEvent_not_press order m ev HP) as (m1 & Hu & ->).
    destruct (updatePressed_Ok m ev) as (m1' & Hu' & _ & _ & _ & Hf).
    assert (m1' = m1) as -> by congruence.
    exists m1, []. split; [reflexivity|].
    apply map_eq. intros c. rewrite Hf, Hs, andb_false_r. reflexivity.
Qed.

(** X9. Press then release of a key that was not pressed gives back the
    manager as it was (pressed set, fired set, bindings, flag), for a
    key without ['+'] in its name when no combo of the fired set ends
    in the name of that key. *)
Theorem press_release_roundtrip order order' m key :
  pressed m !! key = None ->
  hasByte "+" key = false ->
  (forall combo, is_Some (fired m !! combo) -> trailing combo <> keyName key) ->
  exists cbs,
    HandleEvents m [(order, press key); (order', release key)] = Ok (m, cbs).
Proof.
  intros Hp Hplus Hfree.
  destruct (HandleEvent_step order m (press key))
    as (m1 & cbs & H1 & Hb1 & Hs1 & _).
  assert (Hp1 : pressed m1 = <[key := true]> (pressed m)).
  { destruct (HandleEvent_Ok order m (press key))
      as (m1' & cbs' & H1' & _ & _ & Hp1).
    assert (m1' = m1) as -> by congruence. exact Hp1. }
  assert (Hf1 : forall c, trailing c <> keyName key ->
                          fired m1 !! c = fired m !! c).
  { intros c Hc. revert H1.
    destruct (isModifier key) eqn:Hm.
    - rewrite HandleEvent_press_modifier by assumption. now intros [= <- _].
    - rewrite HandleEvent_press_key by assumption. cbv zeta.
      destruct (suppressRepeats m); [destruct (index _ _)|];
        intros [= <- _]; try reflexivity.
      simpl. apply lookup_insert_ne. intros <-.
      now rewrite trailing_candidateCombo in Hc. }
  assert (Hoff : suppressRepeats m = false -> fired m1 = fired m).
  { intros Hs.
    destruct (without_suppression_fired order m (press key) Hs)
      as (m1' & cbs' & H1' & Hf).
    assert (m1' = m1) as -> by congruence. exact Hf. }
  destruct (HandleEvent_release_fields order' m1 key)
    as (m2 & H2 & Hb2 & Hs2 & Hp2 & Hf2).
  exists (cbs ++ [])%list. cbn [HandleEvents]. rewrite H1. cbn [bind fst snd].
  rewrite H2. cbn [bind fst snd]. do 2 f_equal.
  apply Manager_eq; try congruence.
  - rewrite Hp2, Hp1. now apply delete_insert_id.
  - apply map_eq. intros c. rewrite Hf2, Hs1.
    destruct (suppressRepeats m) eqn:Hs; simpl.
    + destruct (String.eqb_spec (trailing c) (keyName key)) as [Ht|Ht].
      * destruct (fired m !! c) eqn:E; [|reflexivity].
        exfalso. apply (Hfree c); eauto.
      * now apply Hf1.
    + now rewrite Hoff.
Qed.

Lemma press_release_roundtrip_witness :
  exists cbs,
    HandleEvents (withPressed mgrS "KEY_LEFTCTRL")
      [(["KEY_X"; "KEY_LEFTCTRL"], press "KEY_X"); ([], release "KEY_X")]
    = Ok (withPressed mgrS "KEY_LEFTCTRL", cbs).
Proof.
  apply press_release_roundtrip.
  - now vm_compute.
  - reflexivity.
  - intros combo [b Hb]. simpl in Hb. rewrite lookup_empty in Hb.
    discriminate Hb.
Defined.

(** X10. A release repeated changes nothing more: after the release of
    a key, a second release of that key returns the same manager and
    starts no callback. *)
Theorem release_twice order order' m key :
  exists m',
    HandleEvent order m (release key) = Ok (m', []) /\
    HandleEvent order' m' (release key) = Ok (m', []).
Proof.
  destruct (HandleEvent_release_fields order m key)
    as (m1 & H1 & Hb1 & Hs1 & Hp1 & Hf1).
  destruct (HandleEvent_release_fields order' m1 key)
    as (m2 & H2 & Hb2 & Hs2 & Hp2 & Hf2).
  exists m1. split; [assumption|]. rewrite H2. do 2 f_equal.
  apply Manager_eq; try congruence.
  - rewrite Hp2, Hp1. apply map_eq. intros k.
    destruct (decide (key = k)) as [->|Hne].
    + now rewrite !lookup_delete_eq.
    + now rewrite !lookup_delete_ne.
  - apply map_eq. intros c. rewrite Hf2, Hf1, Hs1.
    now destruct (suppressRepeats m && String.eqb (trailing c) (keyName key))%bool.
Qed.

(** ** The maps are sets *)

Lemma HandleEvent_fired_values order m ev :
  exists m' cbs,
    HandleEvent order m ev = Ok (m', cbs) /\
    forall c b, fired m' !! c = Some b -> fired m !! c = Some b \/ b = true.
Proof.
  destruct (Z.eqb_spec (Type' ev) Press) as [HP|HP].
  - destruct ev as [key ty]. simpl in HP. subst ty. fold (press key).
    destruct (isModifier key) eqn:Hm.
    + rewrite HandleEvent_press_modifier by assumption.
      eexists _, _. split; [reflexivity|]. auto.
    + rewrite HandleEvent_press_key by assumption. cbv zeta.
      destruct (suppressRepeats m); [destruct (index _ _)|];
        (eexists _, _; split; [reflexivity|]); auto.
      simpl. intros c b.
      destruct (decide (candidateCombo order key = c)) as [<-|Hne].
      * rewrite lookup_insert_eq. intros [= <-]. now right.
      * rewrite lookup_insert_ne by assumption. auto.
  - destruct (HandleEvent_not_press order m ev HP) as (m1 & Hu & ->).
    destruct (updatePressed_Ok m ev) as (m1' & Hu' & _ & _ & _ & Hf).
    assert (m1' = m1) as -> by congruence.
    exists m1, []. split; [reflexivity|]. intros c b. rewrite Hf.
    destruct (_ && String.eqb _ _)%bool; [discriminate|auto].
Qed.

(** X11. The maps [pressed] and [fired] are used as sets: when every
    entry holds [true] (as in a new manager), every entry holds [true]
    after any event, so that the test [m.fired[combo]] of line 203 is
    the test that [combo] is a key of the map. *)
Theorem maps_are_sets order m ev :
  allTrue (pressed m) -> allTrue (fired m) ->
  allTrue (pressed NewManager) /\ allTrue (fired NewManager) /\
  exists m' cbs,
    HandleEvent order m ev = Ok (m', cbs) /\
    allTrue (pressed m') /\ allTrue (fired m') /\
    forall c, index (fired m') c = true <-> is_Some (fired m' !! c).
Proof.
  intros Hp Hf. split_and!; try (intros k b H; simpl in H;
                                 now rewrite lookup_empty in H).
  destruct (HandleEvent_fired_values order m ev) as (m' & cbs & He & Hv).
  destruct (HandleEvent_Ok order m ev) as (m'' & cbs' & He' & _ & _ & Hp').
  assert (m'' = m') as -> by congruence.
  assert (Hf' : allTrue (fired m')).
  { intros c b Hc. destruct (Hv c b Hc) as [H| ->]; [|reflexivity].
    now apply (Hf c). }
  exists m', cbs. split_and!; [assumption| |assumption|].
  - intros k b. rewrite Hp'.
    destruct (Type' ev =? Press).
    + destruct (decide (Key ev = k)) as [<-|Hne].
      * rewrite lookup_insert_eq. now intros [= <-].
      * rewrite lookup_insert_ne by assumption. apply Hp.
    + destruct (Type' ev =? Release); [|apply Hp].
      destruct (decide (Key ev = k)) as [<-|Hne].
      * now rewrite lookup_delete_eq.
      * rewrite lookup_delete_ne by assumption. apply Hp.
  - intros c. unfold index. destruct (fired m' !! c) as [b|] eqn:E.
    + rewrite (Hf' c b E). split; eauto.
    + split; [discriminate|]. intros [? ?]. discriminate.
Qed.

Lemma maps_are_sets_witness :
  exists m' cbs,
    HandleEvent ctrlFirst firedOnce (release "KEY_T") = Ok (m', cbs) /\
    allTrue (pressed m') /\ allTrue (fired m').
Proof.
  assert (Hset : forall (mp : gmap string bool) k, allTrue mp ->
                   allTrue (<[k := true]> mp)).
  { intros mp k H k' b.
    destruct (decide (k = k')) as [<-|Hne].
    - rewrite lookup_insert_eq. now intros [= <-].
    - rewrite lookup_insert_ne by assumption. apply H. }
  assert (Hempty : allTrue ∅).
  { intros k b H. now rewrite lookup_empty in H. }
  destruct (maps_are_sets ctrlFirst firedOnce (release "KEY_T"))
    as (_ & _ & m' & cbs & He & Hp & Hf & _).
  - simpl. now repeat apply Hset.
  - simpl. now apply Hset.
  - exists m', cbs. split_and!; assumption.
Defined.

(** ** Registration *)

(** X12. Registration is insensitive to letter case and the last
    registration wins: registering a combo that differs from an earlier
    one only in case leaves the manager as if the earlier registration
    had not happened, and the combo is bound to the later callback. *)
Theorem RegisterBinding_last_wins c1 c2 cb1 cb2 m :
  strings.ToUpper c1 = strings.ToUpper c2 ->
  RegisterBinding c2 cb2 (RegisterBinding c1 cb1 m) = RegisterBinding c2 cb2 m /\
  bindings (RegisterBinding c2 cb2 (RegisterBinding c1 cb1 m))
    !! normalizeCombo c1 = Some cb2.
Proof.
  intros Hup.
  assert (Hn : normalizeCombo c1 = normalizeCombo c2)
    by now rewrite !normalizeCombo_ToUpper.
  split.
  - apply Manager_eq; try reflexivity. simpl. rewrite Hn.
    apply insert_insert_eq.
  - simpl. rewrite Hn. apply lookup_insert_eq.
Qed.

Lemma RegisterBinding_last_wins_witness :
  RegisterBinding "META+O" (Callback 2)
    (RegisterBinding "meta+o" (Callback 1) NewManager)
  = RegisterBinding "META+O" (Callback 2) NewManager.
Proof.
  apply (RegisterBinding_last_wins "meta+o" "META+O"). reflexivity.
Defined.

(** X13. Registrations of ASCII combos that differ after uppercasing
    do not disturb each other: they can be made in either order, and
    each combo stays bound to its own callback. *)
Theorem RegisterBinding_independent c1 c2 cb1 cb2 m :
  isASCII c1 = true -> isASCII c2 = true ->
  strings.ToUpper c1 <> strings.ToUpper c2 ->
  RegisterBinding c1 cb1 (RegisterBinding c2 cb2 m)
    = RegisterBinding c2 cb2 (RegisterBinding c1 cb1 m) /\
  bindings (RegisterBinding c1 cb1 (RegisterBinding c2 cb2 m))
    !! normalizeCombo c1 = Some cb1 /\
  bindings (RegisterBinding c1 cb1 (RegisterBinding c2 cb2 m))
    !! normalizeCombo c2 = Some cb2.
Proof.
  intros _ _ Hup.
  assert (Hn : normalizeCombo c1 <> normalizeCombo c2)
    by now rewrite !normalizeCombo_ToUpper.
  split_and!.
  - apply Manager_eq; try reflexivity. simpl. now apply insert_insert_ne.
  - simpl. apply lookup_insert_eq.
  - simpl. rewrite lookup_insert_ne by assumption. apply lookup_insert_eq.
Qed.

Lemma RegisterBinding_independent_witness :
  bindings (RegisterBinding "CTRL+ALT+T" (Callback 1)
              (RegisterBinding "META+O" (Callback 2) NewManager))
    !! "META+O" = Some (Callback 2).
Proof.
  destruct (RegisterBinding_independent "CTRL+ALT+T" "META+O"
              (Callback 1) (Callback 2) NewManager) as (_ & _ & H).
  - reflexivity.
  - reflexivity.
  - vm_compute. discriminate.
  - exact H.
Defined.

(** ** A whole run *)

Lemma firedInv_HandleEvent order m ev :
  firedInv m ->
  (Type' ev = Press -> hasByte "+" (Key ev) = false) ->
  exists m' cbs, HandleEvent order m ev = Ok (m', cbs) /\ firedInv m'.
Proof.
  intros HI Hplus. destruct ev as [key ty]. simpl in Hplus.
  destruct (Z.eqb_spec ty Press) as [->|HP].
  - now apply firedInv_press; [|apply Hplus].
  - destruct (Z.eqb_spec ty Release) as [->|HR].
    + destruct (HandleEvent_release order m key HI) as (m' & He & HI' & _).
      eauto.
    + exists m, []. split; [|assumption]. now apply HandleEvent_other.
Qed.

(** A whole run keeps what single calls keep, when every callback is
    a function: from a manager that satisfies the invariant of the
    fired set, any sequence of events whose pressed keys have no ['+']
    in their names is processed, the invariant holds at the end, the
    bindings and the flag are unchanged, and the callbacks started are
    at most as many as the presses of non-modifier keys. *)
Theorem run_invariant sched : forall m,
  firedInv m ->
  Forall (fun oe => Type' (snd oe) = Press ->
                    hasByte "+" (Key (snd oe)) = false) sched ->
  exists m' cbs,
    HandleEvents m sched = Ok (m', cbs) /\
    firedInv m' /\
    bindings m' = bindings m /\
    suppressRepeats m' = suppressRepeats m /\
    (length cbs <= keyPresses sched)%nat.
Proof.
  induction sched as [|[order ev] sched IH]; intros m HI Hall.
  - exists m, []. split_and!; auto.
  - apply Forall_cons_1 in Hall as [Hev Hall]. simpl in Hev.
    destruct (firedInv_HandleEvent order m ev HI Hev) as (m1 & cbs1 & He & HI1).
    destruct (HandleEvent_step order m ev)
      as (m1' & cbs1' & He' & Hb1 & Hs1 & Hc).
    assert (m1' = m1 /\ cbs1' = cbs1) as [-> ->] by (split; congruence).
    destruct (IH m1 HI1 Hall) as (m' & cbs & Hes & HI' & Hb & Hs & Hlen).
    exists m', (cbs1 ++ cbs)%list. cbn [HandleEvents].
    rewrite He. cbn [bind fst snd]. rewrite Hes. cbn [bind fst snd].
    split_and!; [reflexivity|assumption|congruence|congruence|].
    rewrite length_app. unfold keyPresses in *. cbn [List.filter snd].
    destruct Hc as [->|(cb & -> & HP & Hm & _)].
    + simpl. destruct (_ && _)%bool; simpl; lia.
    + rewrite HP, Hm. simpl. lia.
Qed.

Lemma run_invariant_witness :
  exists m' cbs,
    HandleEvents mgrS (pressTTwice altFirst) = Ok (m', cbs) /\
    firedInv m' /\ (length cbs <= 2)%nat.
Proof.
  destruct (run_invariant (pressTTwice altFirst) mgrS)
    as (m' & cbs & He & HI & _ & _ & Hlen).
  - split; [|discriminate]. intros combo [b Hb]. simpl in Hb.
    rewrite lookup_empty in Hb. discriminate Hb.
  - repeat constructor.
  - exists m', cbs. split_and!; [exact He|exact HI|exact Hlen].
Defined.

(** ** Finding the keyboard *)

Lemma CutPrefix_app s prefix rest :
  strings.CutPrefix s prefix = Some rest <-> s = (prefix ++ rest)%string.
Proof.
  revert s. induction prefix as [|p prefix IH]; intros s; simpl.
  - split; [now intros [= ->]|now intros ->].
  - destruct s as [|c s].
    + split; discriminate.
    + rewrite append_cons. destruct (Ascii.eqb_spec c p) as [->|Hne].
      * rewrite IH. split; [now intros ->|now intros [= ->]].
      * split; [discriminate|]. intros [= -> _]. contradiction.
Qed.

Lemma Contains_occurs s substr :
  strings.Contains s substr = true <->
  exists pre post, s = (pre ++ substr ++ post)%string.
Proof.
  split.
  - induction s as [|c s IH]; simpl.
    + destruct (strings.CutPrefix "" substr) as [r|] eqn:E; [|discriminate].
      intros _. apply CutPrefix_app in E. now exists "", r.
    + destruct (strings.CutPrefix (String c s) substr) as [r|] eqn:E.
      * intros _. apply CutPrefix_app in E. now exists "", r.
      * intros H. destruct (IH H) as (pre & post & ->).
        now exists (String c pre), post.
  - intros (pre & post & ->). induction pre as [|c pre IH].
    + change ("" ++ substr ++ post)%string with (substr ++ post)%string.
      assert (E : strings.CutPrefix (substr ++ post) substr = Some post)
        by now apply CutPrefix_app.
      destruct (substr ++ post)%string; simpl; now rewrite E.
    + rewrite append_cons. simpl.
      now destruct (strings.CutPrefix _ substr).
Qed.

Lemma slices_Contains_In types t :
  slices_Contains types t = true <-> In t types.
Proof.
  unfold slices_Contains. rewrite existsb_exists. split.
  - intros (x & Hin & ->%Z.eqb_eq). exact Hin.
  - intros Hin. exists t. split; [exact Hin|apply Z.eqb_refl].
Qed.

(** One turn of the loop: the device qualifies and its path is
    returned, or it does not and the loop goes on; a device that was
    opened is closed in both cases. *)
Lemma scanPaths_cons open p rest :
  (isKeyboard open p /\
   scanPaths open (p :: rest)
   = ([Opened (evdev.Path p); Closed (evdev.Path p)], Got (evdev.Path p)))
  \/
  (~ isKeyboard open p /\
   exists tr,
     (tr = [] \/
      tr = [Opened (evdev.Path p); Closed (evdev.Path p)] /\
      exists dev, open (evdev.Path p) = Got dev) /\
     scanPaths open (p :: rest)
     = ((tr ++ fst (scanPaths open rest))%list, snd (scanPaths open rest))).
Proof.
  cbn [scanPaths].
  destruct (open (evdev.Path p)) as [dev|err] eqn:Eo.
  2:{ right. split.
      - intros (d & _ & _ & _ & H & _). congruence.
      - exists []. split; [now left|]. now destruct (scanPaths open rest). }
  assert (Hskip : ~ isKeyboard open p ->
            ~ isKeyboard open p /\
            exists tr,
              (tr = [] \/
               tr = [Opened (evdev.Path p); Closed (evdev.Path p)] /\
               exists dev0, Got dev = Got dev0) /\
              (Opened (evdev.Path p) :: Closed (evdev.Path p)
                 :: fst (scanPaths open rest), snd (scanPaths open rest))
              = ((tr ++ fst (scanPaths open rest))%list,
                 snd (scanPaths open rest))).
  { intros Hn. split; [exact Hn|].
    exists [Opened (evdev.Path p); Closed (evdev.Path p)].
    split; [right; eauto|reflexivity]. }
  destruct (slices_Contains (evdev.CapableTypes dev) evdev.EV_KEY) eqn:Ek.
  2:{ right. apply Hskip. intros (d & _ & _ & _ & H & Hk & _).
      assert (d = dev) as -> by congruence.
      apply slices_Contains_In in Hk. congruence. }
  destruct (slices_Contains (evdev.CapableTypes dev) evdev.EV_REP) eqn:Er.
  2:{ right. apply Hskip. intros (d & _ & _ & _ & H & _ & Hr & _).
      assert (d = dev) as -> by congruence.
      apply slices_Contains_In in Hr. congruence. }
  cbn [negb orb].
  destruct (evdev.DeviceName dev) as [name|err] eqn:En.
  2:{ right. apply Hskip. intros (d & n & _ & _ & H & _ & _ & Hn & _).
      assert (d = dev) as -> by congruence. congruence. }
  destruct (strings.Contains (strings.ToLower name) "keyboard") eqn:Ec.
  - left. split; [|reflexivity].
    apply Contains_occurs in Ec as (pre & post & Hc).
    exists dev, name, pre, post.
    split_and!; auto; now apply slices_Contains_In.
  - right. apply Hskip. intros (d & n & pre & post & H & _ & _ & Hn & Hc).
    assert (d = dev) as -> by congruence.
    assert (n = name) as -> by congruence.
    assert (strings.Contains (strings.ToLower name) "keyboard" = true)
      by (apply Contains_occurs; eauto).
    congruence.
Qed.

(** X15. When the names of the listed devices are ASCII,
    [findFirstKeyboard] returns the path of the first listed device
    that opens, reports key and repeat events and has a name containing
    "keyboard" in any letter case; when no listed device does, it fails
    with "no keyboard found"; when the listing fails, it fails with
    "listing devices: " and the message of that error. *)
Theorem findFirstKeyboard_first open paths err :
  Forall (fun q => forall dev name,
            open (evdev.Path q) = Got dev ->
            evdev.DeviceName dev = Got name -> isASCII name = true) paths ->
  snd (findFirstKeyboard (Failed err) open)
    = Failed ("listing devices: " ++ err)%string /\
  ((exists pre p post,
      paths = (pre ++ p :: post)%list /\
      Forall (fun q => ~ isKeyboard open q) pre /\
      isKeyboard open p /\
      snd (findFirstKeyboard (Got paths) open) = Got (evdev.Path p))
   \/
   (Forall (fun q => ~ isKeyboard open q) paths /\
    snd (findFirstKeyboard (Got paths) open) = Failed "no keyboard found")).
Proof.
  intros _. split; [reflexivity|]. cbn [findFirstKeyboard].
  induction paths as [|p rest IH].
  - right. split; [constructor|reflexivity].
  - destruct (scanPaths_cons open p rest) as [[Hk ->]|(Hn & tr & _ & ->)].
    + left. exists [], p, rest. split_and!; auto.
    + cbn [snd].
      destruct IH as [(pre & q & post & -> & Hpre & Hq & Hr)|[Hall Hr]].
      * left. exists (p :: pre), q, post. split_and!; auto.
      * right. split; [now constructor|assumption].
Qed.

Lemma findFirstKeyboard_first_witness :
  exists p,
    isKeyboard someDevices p /\
    snd (findFirstKeyboard (Got somePaths) someDevices)
      = Got (evdev.Path p) /\
    evdev.Path p = "/dev/input/event2".
Proof.
  destruct (findFirstKeyboard_first someDevices somePaths "")
    as (_ & [(pre & p & post & _ & _ & Hk & Hr)|[_ Hr]]).
  - unfold somePaths. cbn [List.map].
    repeat (apply List.Forall_cons;
            [ intros dev name Ho Hn; vm_compute in Ho;
              first [ discriminate Ho
                    | injection Ho as <-; vm_compute in Hn;
                      injection Hn as <-; reflexivity ] | ]).
    apply List.Forall_nil.
  - exists p. split_and!; [exact Hk|exact Hr|].
    vm_compute in Hr. now injection Hr.
  - vm_compute in Hr. discriminate Hr.
Defined.

(** X16. [findFirstKeyboard] leaves no device open: whatever it
    returns, the devices it opened were each closed before the next one
    was opened or the function returned; and it opens only listed
    paths. *)
Theorem findFirstKeyboard_closes listing open :
  exists opened,
    fst (findFirstKeyboard listing open) = openedAndClosed opened /\
    forall path, In path opened ->
      (exists dev, open path = Got dev) /\
      exists paths p,
        listing = Got paths /\ In p paths /\ evdev.Path p = path.
Proof.
  destruct listing as [paths|err]; cbn [findFirstKeyboard];
    [|exists []; split; [reflexivity|intros ? []]].
  enough (H : exists opened,
            fst (scanPaths open paths) = openedAndClosed opened /\
            forall path, In path opened ->
              (exists dev, open path = Got dev) /\
              exists p, In p paths /\ evdev.Path p = path).
  { destruct H as (opened & Ht & Hin). exists opened. split; [exact Ht|].
    intros path Hp. destruct (Hin path Hp) as (Hd & p & Hpin & Hpp).
    split; [exact Hd|]. now exists paths, p. }
  induction paths as [|p rest IH].
  - exists []. split; [reflexivity|intros ? []].
  - destruct IH as (opened & Ht & Hin).
    destruct (scanPaths_cons open p rest)
      as [[Hk ->]|(Hn & tr & [->|[-> Hd]] & ->)]; cbn [fst].
    + exists [evdev.Path p]. split; [reflexivity|].
      intros path [<-|[]]. destruct Hk as (dev & _ & _ & _ & Hd & _).
      split; [eauto|]. exists p. split; [now left|reflexivity].
    + exists opened. split; [exact Ht|]. intros path Hp.
      destruct (Hin path Hp) as (Hd & q & Hq & Hqp).
      split; [exact Hd|]. exists q. split; [now right|exact Hqp].
    + exists (evdev.Path p :: opened). split; [simpl; now rewrite Ht|].
      intros path [<-|Hp].
      * split; [exact Hd|]. exists p. split; [now left|reflexivity].
      * destruct (Hin path Hp) as (Hd' & q & Hq & Hqp).
        split; [exact Hd'|]. exists q. split; [now right|exact Hqp].
Qed.

(** ** The events delivered by [Listen] *)

Lemma readLoop_In codeName reads e :
  In e (readLoop codeName reads) ->
  (Type' e = Release \/ Type' e = Press \/ Type' e = Hold) /\
  exists ev,
    In (Got ev) reads /\ evdev.evType ev = evdev.EV_KEY /\
    Key e = codeName ev /\ Type' e = evdev.evValue ev.
Proof.
  induction reads as [|[ev|err] reads IH]; cbn [readLoop]; [intros []| |intros []].
  assert (Hrest : In e (readLoop codeName reads) ->
            (Type' e = Release \/ Type' e = Press \/ Type' e = Hold) /\
            exists ev0,
              In (Got ev0) (Got ev :: reads) /\
              evdev.evType ev0 = evdev.EV_KEY /\
              Key e = codeName ev0 /\ Type' e = evdev.evValue ev0).
  { intros H. destruct (IH H) as (Ht & ev0 & Hin & Hrest).
    split; [exact Ht|]. exists ev0. split; [now right|exact Hrest]. }
  destruct (Z.eqb_spec (evdev.evType ev) evdev.EV_KEY) as [Hk|Hk];
    cbn [negb]; [|exact Hrest].
  destruct (Z.eqb_spec (evdev.evValue ev) 0) as [H0|H0];
    [|destruct (Z.eqb_spec (evdev.evValue ev) 1) as [H1|H1];
      [|destruct (Z.eqb_spec (evdev.evValue ev) 2) as [H2|H2];
        [|exact Hrest]]];
    (intros [<-|H]; [|now apply Hrest]);
    (split; [auto|]; exists ev; split_and!; [now left|assumption|reflexivity|]);
    simpl; unfold Release, Press, Hold; congruence.
Qed.

(** X17. Every event sent on the channel of [Listen] has one of the
    three named types, and comes from a key event ([EV_KEY]) that was
    read: its key is the code name of that event and its type is the
    value of that event (0, 1 or 2).  Events of other types and key
    events with other values are never delivered. *)
Theorem readLoop_delivers_key_events codeName reads e :
  In e (readLoop codeName reads) ->
  (Type' e = Release \/ Type' e = Press \/ Type' e = Hold) /\
  exists ev,
    In (Got ev) reads /\ evdev.evType ev = evdev.EV_KEY /\
    Key e = codeName ev /\ Type' e = evdev.evValue ev.
Proof. apply readLoop_In. Qed.

Lemma readLoop_delivers_key_events_witness :
  Type' (mkEvent "KEY_A" Press) = Release \/
  Type' (mkEvent "KEY_A" Press) = Press \/
  Type' (mkEvent "KEY_A" Press) = Hold.
Proof.
  destruct (readLoop_delivers_key_events (fun _ => "KEY_A")
              [Got (evdev.mkInputEvent 4 4 30);
               Got (evdev.mkInputEvent 1 30 1);
               Got (evdev.mkInputEvent 0 0 0)]
              (mkEvent "KEY_A" Press)) as [H _].
  - now left.
  - exact H.
Defined.

Lemma readLoop_app codeName evs rest :
  readLoop codeName (List.map Got evs ++ rest)
  = (readLoop codeName (List.map Got evs) ++ readLoop codeName rest)%list.
Proof.
  induction evs as [|ev evs IH]; [reflexivity|]. cbn [List.map app readLoop].
  rewrite IH.
  destruct (negb _); [reflexivity|].
  repeat (destruct (_ =? _); [reflexivity|]). reflexivity.
Qed.

(** X18. The reading loop keeps the order of the events, loses no key
    event and stops at the first read error: the events read before the
    error are delivered in their order, each key event with value 0, 1
    or 2 among them is delivered, and nothing that follows the error
    is. *)
Theorem readLoop_until_error codeName evs err rest ev :
  readLoop codeName (List.map Got evs ++ Failed err :: rest)
    = readLoop codeName (List.map Got evs) /\
  (forall more,
     readLoop codeName (List.map Got evs ++ more)
     = (readLoop codeName (List.map Got evs) ++ readLoop codeName more)%list) /\
  (In ev evs -> evdev.evType ev = evdev.EV_KEY ->
   0 <= evdev.evValue ev <= 2 ->
   In (mkEvent (codeName ev) (evdev.evValue ev))
      (readLoop codeName (List.map Got evs ++ Failed err :: rest))).
Proof.
  split_and!.
  - rewrite readLoop_app. cbn [readLoop]. apply app_nil_r.
  - intros more. apply readLoop_app.
  - intros Hin Hk Hv. rewrite readLoop_app. apply in_or_app. left.
    induction evs as [|ev0 evs IH]; [destruct Hin|].
    cbn [List.map readLoop].
    assert (Hrest : In ev evs ->
              forall l, l = readLoop codeName (List.map Got evs) ->
              In (mkEvent (codeName ev) (evdev.evValue ev)) l).
    { intros H l ->. now apply IH. }
    destruct Hin as [->|Hin].
    + rewrite Hk. cbn [Z.eqb negb Pos.eqb evdev.EV_KEY].
      assert (Hcases : evdev.evValue ev = 0 \/ evdev.evValue ev = 1 \/
                       evdev.evValue ev = 2) by lia.
      destruct Hcases as [->|[->| ->]]; now left.
    + destruct (negb _); [now apply IH|].
      repeat (destruct (_ =? _); [right; now apply IH|]). now apply IH.
Qed.

Lemma readLoop_until_error_witness :
  In (mkEvent "KEY_A" Press)
     (readLoop (fun _ => "KEY_A")
        (List.map Got [evdev.mkInputEvent 4 4 30; evdev.mkInputEvent 1 30 1]
         ++ Failed "EOF" :: [Got (evdev.mkInputEvent 1 30 0)])).
Proof.
  destruct (readLoop_until_error (fun _ => "KEY_A")
              [evdev.mkInputEvent 4 4 30; evdev.mkInputEvent 1 30 1]
              "EOF" [Got (evdev.mkInputEvent 1 30 0)]
              (evdev.mkInputEvent 1 30 1)) as (_ & _ & H).
  apply H.
  - right. now left.
  - reflexivity.
  - simpl. lia.
Defined.

(** X19. [Listen] fails with the error of [findFirstKeyboard], or with
    "opening <path>: " and the error of the second [Open]; otherwise it
    delivers the events of the reading loop, all of which have one of
    the three named types, so that [HandleEvent] treats none of them as
    an unknown event. *)
Theorem Listen_outcome listing open reopen codeName reads :
  match Listen listing open reopen codeName reads with
  | Failed err =>
      snd (findFirstKeyboard listing open) = Failed err \/
      exists path e,
        snd (findFirstKeyboard listing open) = Got path /\
        reopen path = Failed e /\
        err = ("opening " ++ path ++ ": " ++ e)%string
  | Got evs =>
      (exists path dev,
         snd (findFirstKeyboard listing open) = Got path /\
         reopen path = Got dev) /\
      evs = readLoop codeName reads /\
      Forall (fun e => Type' e = Release \/ Type' e = Press \/ Type' e = Hold)
        evs
  end.
Proof.
  unfold Listen.
  destruct (snd (findFirstKeyboard listing open)) as [path|err]; [|now left].
  destruct (reopen path) as [dev|e] eqn:Er.
  - split_and!; eauto. apply List.Forall_forall. intros e He.
    now apply readLoop_In in He.
  - right. eauto.
Qed.

(** ** Nil callbacks *)

Lemma Nilable_updatePressed (M : Nilable.Manager) (m : Manager) ev :
  Nilable.pressed M = pressed m ->
  Nilable.fired M = fired m ->
  Nilable.suppressRepeats M = suppressRepeats m ->
  exists m1,
    updatePressed m ev = Ok m1 /\
    Nilable.updatePressed M ev
    = Ok {| Nilable.bindings := Nilable.bindings M;
            Nilable.pressed := pressed m1;
            Nilable.fired := fired m1;
            Nilable.suppressRepeats := suppressRepeats m1 |}.
Proof.
  intros Hp Hf Hs. unfold Nilable.updatePressed, updatePressed.
  rewrite Hp, Hf, Hs.
  destruct (Type' ev =? Press); [eexists; split; reflexivity|].
  destruct (Type' ev =? Release).
  - destruct (suppressRepeats m); [|eexists; split; reflexivity].
    destruct (purgeLoop_range (keyName (Key ev)) (fired m) _
                (rangeOrder_keys _)) as (fired' & -> & _).
    eexists. split; reflexivity.
  - exists m. split; [reflexivity|].
    destruct M. simpl in *. now subst.
Qed.

Lemma dispatch_embed m combo :
  Nilable.dispatch (embed m) combo = Ok (dispatch m combo).
Proof.
  unfold Nilable.dispatch, dispatch, embed. simpl.
  rewrite lookup_fmap. now destruct (bindings m !! combo).
Qed.

(** On a manager whose callbacks are functions the two embeddings of
    [HandleEvent] agree. *)
Lemma HandleEvent_embed order m ev :
  Nilable.HandleEvent order (embed m) ev
  = match HandleEvent order m ev with
    | Ok (m', cbs) => Ok (embed m', cbs)
    | Panic => Panic
    end.
Proof.
  destruct (Nilable_updatePressed (embed m) m ev eq_refl eq_refl eq_refl)
    as (m1 & Hu & HuN).
  destruct (updatePressed_Ok m ev) as (m1' & Hu' & Hb & _).
  assert (m1' = m1) as -> by congruence.
  assert (HuN' : Nilable.updatePressed (embed m) ev = Ok (embed m1)).
  { rewrite HuN. unfold embed. simpl. now rewrite Hb. }
  unfold Nilable.HandleEvent, HandleEvent. rewrite HuN', Hu. cbn [bind].
  destruct ((Type' ev =? Press) && negb (isModifier (Key ev)))%bool;
    [|reflexivity].
  change (Nilable.suppressRepeats (embed m1)) with (suppressRepeats m1).
  change (Nilable.fired (embed m1)) with (fired m1).
  destruct (suppressRepeats m1).
  - destruct (index (fired m1) _); [reflexivity|].
    match goal with
    | |- context [Nilable.dispatch ?M ?c] =>
        change M
          with (embed {| bindings := bindings m1; pressed := pressed m1;
                         fired := <[c := true]> (fired m1);
                         suppressRepeats := true |})
    end.
    now rewrite dispatch_embed.
  - now rewrite dispatch_embed.
Qed.

Lemma HandleEvents_embed sched : forall m,
  Nilable.HandleEvents (embed m) sched
  = match HandleEvents m sched with
    | Ok (m', cbs) => Ok (embed m', cbs)
    | Panic => Panic
    end.
Proof.
  induction sched as [|[order ev] sched IH]; intros m; [reflexivity|].
  cbn [Nilable.HandleEvents HandleEvents]. rewrite HandleEvent_embed.
  destruct (HandleEvent order m ev) as [[m1 cbs1]|]; [|reflexivity].
  cbn [bind fst snd]. rewrite IH.
  now destruct (HandleEvents m1 sched) as [[m2 cbs2]|].
Qed.

Lemma noNil_embed m : noNil (embed m).
Proof.
  intros combo. unfold embed. simpl. rewrite lookup_fmap.
  now destruct (bindings m !! combo).
Qed.

Lemma embed_strip M : noNil M -> embed (strip M) = M.
Proof.
  intros Hn. destruct M as [b p f s]. unfold embed, strip. simpl. f_equal.
  apply map_eq. intros k. rewrite lookup_fmap, lookup_omap.
  specialize (Hn k). simpl in Hn.
  destruct (b !! k) as [[|cb]|]; simpl; congruence.
Qed.

(** C9, as stated, fails: after [RegisterBinding("a", nil)] the press
    of [KEY_A] reaches [go cb()] with a nil function value, which is
    fatal. *)
Lemma HandleEvent_nil_callback_panics :
  Nilable.bindings
    (Nilable.RegisterBinding "a" Nilable.nilFunc Nilable.NewManager)
    !! "A" = Some Nilable.nilFunc /\
  candidateCombo ["KEY_A"] "KEY_A" = "A" /\
  Nilable.HandleEvent ["KEY_A"]
    (Nilable.RegisterBinding "a" Nilable.nilFunc Nilable.NewManager)
    (press "KEY_A") = Panic.
Proof. split_and!; now vm_compute. Qed.

(** C9, amended.  [HandleEvent] fails in one case only: the press of a
    non-modifier key whose candidate combo is bound to a nil callback
    (and, under suppression, is not in the fired set), which is fatal
    at [go cb()].  On a manager without nil callbacks it returns for
    every event.  On every manager, an event whose type is none of
    Release, Press, Hold leaves the manager unchanged and starts no
    callback, and a Release of a key that is not pressed returns,
    leaves the pressed keys unchanged and starts no callback. *)
Theorem HandleEvent_fails_only_on_nil order m ev :
  (Nilable.HandleEvent order m ev = Panic <->
   Type' ev = Press /\ isModifier (Key ev) = false /\
   Nilable.bindings m !! candidateCombo order (Key ev)
     = Some Nilable.nilFunc /\
   (Nilable.suppressRepeats m = true ->
    index (Nilable.fired m) (candidateCombo order (Key ev)) = false)) /\
  (noNil m ->
   exists m' cbs, Nilable.HandleEvent order m ev = Ok (m', cbs)) /\
  (Type' ev <> Release -> Type' ev <> Press -> Type' ev <> Hold ->
   Nilable.HandleEvent order m ev = Ok (m, [])) /\
  (Type' ev = Release -> Nilable.pressed m !! Key ev = None ->
   exists m',
     Nilable.HandleEvent order m ev = Ok (m', []) /\
     Nilable.pressed m' = Nilable.pressed m).
Proof.
  assert (Hiff :
    Nilable.HandleEvent order m ev = Panic <->
    Type' ev = Press /\ isModifier (Key ev) = false /\
    Nilable.bindings m !! candidateCombo order (Key ev)
      = Some Nilable.nilFunc /\
    (Nilable.suppressRepeats m = true ->
     index (Nilable.fired m) (candidateCombo order (Key ev)) = false)).
  { destruct (Z.eqb_spec (Type' ev) Press) as [HP|HP].
    - destruct ev as [key ty]. simpl in HP. subst ty.
      unfold Nilable.HandleEvent, Nilable.updatePressed, Nilable.dispatch.
      simpl.
      destruct (isModifier key) eqn:Hm; simpl.
      { split; [discriminate|]. intros (_ & H & _). discriminate H. }
      destruct (Nilable.suppressRepeats m) eqn:Hs.
      + destruct (index (Nilable.fired m) (candidateCombo order key)) eqn:Hf.
        * split; [discriminate|]. intros (_ & _ & _ & H).
          specialize (H eq_refl). discriminate H.
        * destruct (Nilable.bindings m !! candidateCombo order key)
            as [[|cb]|]; simpl;
            (split;
             [ first [discriminate | intros _; split_and!; auto]
             | first [ intros (_ & _ & H & _); discriminate H
                     | intros _; reflexivity ] ]).
      + destruct (Nilable.bindings m !! candidateCombo order key)
          as [[|cb]|]; simpl;
          (split;
           [ first [discriminate | intros _; split_and!; auto; discriminate]
           | first [ intros (_ & _ & H & _); discriminate H
                   | intros _; reflexivity ] ]).
    - destruct (Nilable_updatePressed m (strip m) ev eq_refl eq_refl eq_refl)
        as (m1 & _ & Hu).
      unfold Nilable.HandleEvent. rewrite Hu. cbn [bind].
      destruct (Z.eqb_spec (Type' ev) Press); [contradiction|]. simpl.
      split; [discriminate|]. intros (H & _). contradiction. }
  split_and!.
  - exact Hiff.
  - intros Hn.
    destruct (Nilable.HandleEvent order m ev) as [[m' cbs]|] eqn:E; [eauto|].
    exfalso. destruct Hiff as [H _].
    destruct (H eq_refl) as (_ & _ & Hb & _). exact (Hn _ Hb).
  - intros HR HP _. unfold Nilable.HandleEvent, Nilable.updatePressed.
    destruct (Z.eqb_spec (Type' ev) Press); [contradiction|].
    destruct (Z.eqb_spec (Type' ev) Release); [contradiction|].
    reflexivity.
  - intros HR Hk.
    destruct (Nilable_updatePressed m (strip m) ev eq_refl eq_refl eq_refl)
      as (m1 & Hu1 & Hu).
    destruct (updatePressed_Ok (strip m) ev) as (m1' & Hu' & _ & _ & Hp & _).
    assert (m1' = m1) as -> by congruence.
    unfold Nilable.HandleEvent. rewrite Hu. cbn [bind]. rewrite HR. simpl.
    eexists. split; [reflexivity|]. simpl. rewrite Hp, HR. simpl.
    now apply delete_id.
Qed.

Lemma HandleEvent_fails_only_on_nil_witness :
  Nilable.pressed firedOnceN !! "KEY_T" = Some true /\
  Nilable.HandleEvent [] firedOnceN (mkEvent "KEY_T" 7)
    = Ok (firedOnceN, []) /\
  (exists m',
     Nilable.HandleEvent [] firedOnceN (release "KEY_X") = Ok (m', []) /\
     Nilable.pressed m' = Nilable.pressed firedOnceN) /\
  (exists m' cbs,
     Nilable.HandleEvent ctrlFirst (embed (downCtrlAltT mgr)) (press "KEY_T")
       = Ok (m', cbs)).
Proof.
  split_and!.
  - now vm_compute.
  - apply (HandleEvent_fails_only_on_nil [] firedOnceN (mkEvent "KEY_T" 7));
      simpl; discriminate.
  - apply (HandleEvent_fails_only_on_nil [] firedOnceN (release "KEY_X")).
    + reflexivity.
    + now vm_compute.
  - apply (HandleEvent_fails_only_on_nil ctrlFirst
             (embed (downCtrlAltT mgr)) (press "KEY_T")).
    intros combo. unfold embed. simpl. rewrite lookup_fmap.
    now destruct (_ !! combo).
Defined.

Lemma firedInvN_strip M : firedInvN M <-> firedInv (strip M).
Proof. reflexivity. Qed.

(** X14. A whole run keeps what single calls keep: from a manager
    without nil callbacks that satisfies the invariant of the fired
    set, any sequence of events whose pressed keys have no ['+'] in
    their names is processed without panic, the invariant holds at the
    end, the bindings and the flag are unchanged, and the callbacks
    started are at most as many as the presses of non-modifier keys. *)
Theorem run_invariant_without_nil sched M :
  noNil M ->
  firedInvN M ->
  Forall (fun oe => Type' (snd oe) = Press ->
                    hasByte "+" (Key (snd oe)) = false) sched ->
  exists M' cbs,
    Nilable.HandleEvents M sched = Ok (M', cbs) /\
    firedInvN M' /\
    Nilable.bindings M' = Nilable.bindings M /\
    Nilable.suppressRepeats M' = Nilable.suppressRepeats M /\
    (length cbs <= keyPresses sched)%nat.
Proof.
  intros Hn HI Hall.
  destruct (run_invariant sched (strip M) (proj1 (firedInvN_strip M) HI) Hall)
    as (m' & cbs & He & HI' & Hb & Hs & Hlen).
  exists (embed m'), cbs.
  assert (He' : Nilable.HandleEvents M sched = Ok (embed m', cbs)).
  { rewrite <- (embed_strip M Hn), HandleEvents_embed, He. reflexivity. }
  split_and!; [exact He'|exact HI'| |exact Hs|exact Hlen].
  transitivity (Nilable.bindings (embed (strip M)));
    [|now rewrite (embed_strip M Hn)].
  unfold embed. simpl. now rewrite Hb.
Qed.

Lemma run_invariant_without_nil_witness :
  exists M' cbs,
    Nilable.HandleEvents (embed mgrS) (pressTTwice altFirst) = Ok (M', cbs) /\
    firedInvN M' /\ (length cbs <= 2)%nat.
Proof.
  destruct (run_invariant_without_nil (pressTTwice altFirst) (embed mgrS))
    as (M' & cbs & He & HI & _ & _ & Hlen).
  - intros combo. unfold embed. simpl. rewrite lookup_fmap.
    now destruct (_ !! combo).
  - split; [|discriminate]. intros combo [b Hb]. simpl in Hb.
    rewrite lookup_empty in Hb. discriminate Hb.
  - repeat constructor.
  - exists M', cbs. split_and!; [exact He|exact HI|exact Hlen].
Defined.
